(** * Undercover word game: the room relay server

    A shallow embedding of the server side of the repository:
    - [utils/helpers.ts]      the room code generator and the two binding maps,
    - [rooms/gameRoom.ts]     the class [GameRoom],
    - [rooms/roomManager.ts]  the class [RoomManager],
    - [socket/gameHandlers.ts] the Socket.IO event handlers,
    - [types/game.ts]         the payload types [Player] and [GameState].

    JavaScript [Map]s are finite maps ([gmap]); no modelled operation observes
    their iteration order.  Mutation of the singleton [roomManager] and of the
    module-level maps is explicit state passing over the record [Server];
    what a handler sends (callbacks, emits, transport-group changes) is the
    list of [Effect]s it returns.  [console.log] is not modelled. *)

From Stdlib Require Import Ascii String QArith Qround.
From stdpp Require Import gmap strings list fin_maps.

Local Open Scope string_scope.
Local Open Scope Z_scope.

#[local] Set Warnings "-clear-no-such-hyp".

(** ** [utils/helpers.ts]: the room code generator *)

Module Helpers.

(** The literal of [generateRoomId]. *)
Definition characters : string := "ABCDEFGHJKLMNPQRSTUVWXYZ23456789".

(** [String.prototype.charAt]: the one-character string at [pos], the empty
  string when [pos] is out of range. *)
Definition charAt (s : string) (pos : Z) : string :=
if (pos <? 0) then ""
else match String.get (Z.to_nat pos) s with
     | Some c => String c EmptyString
     | None => ""
     end.

(** [Math.floor(Math.random() * characters.length)] for a draw [r] of
  [Math.random()].  A draw is a rational: the product of a double with
  the length is modelled exactly. *)
Definition random_index (r : Q) : Z :=
Qfloor (r * inject_Z (Z.of_nat (String.length characters)))%Q.

(** The body of the [for] loop, run [n] times from index [i]; [random i] is
  the value of the [i]-th call of [Math.random()]. *)
Fixpoint generateRoomId_loop (n : nat) (i : nat) (random : nat → Q)
  (result : string) : string :=
match n with
| O => result
| S n' =>
    generateRoomId_loop n' (S i) random
      (result ++ charAt characters (random_index (random i)))
end.

Definition generateRoomId (random : nat → Q) : string :=
generateRoomId_loop 6 0 random "".

(** What [Math.random()] promises: a value in [0, 1). *)
Definition unit_draws (random : nat → Q) : Prop :=
∀ i : nat, (0 <= random i)%Q ∧ (random i < 1)%Q.

End Helpers.

(** ** [types/game.ts]: the payload types *)

Inductive PlayerRole := civilian | undercover | mrwhite | spectator.

Inductive GamePhase := setup | wordReveal | discussion | voting | results | gameEnd.

Record RoleDistribution := {
  undercovers : Z;
  mrWhites : Z;
}.

(** Optional fields ([word?: string]) are [option]s. *)
Module Player.
Record t := {
  id : string;
  name : string;
  word : option string;
  role : option PlayerRole;
  isEliminated : option bool;
  score : option Z;
  submittedDescription : option string;
}.

(** The object literal [{ id, name }] of the constructor and of [addPlayer]. *)
Definition literal (id name : string) : t :=
  {| id := id; name := name; word := None; role := None;
     isEliminated := None; score := None; submittedDescription := None |}.
End Player.

Module GameState.
Record t := {
  players : list Player.t;
  phase : GamePhase;
  currentRound : Z;
  majorityWord : string;
  undercoverWord : string;
  votingResults : option (list (string * string));
  speakingOrder : option (list string);
  lastEliminatedId : option string;
  winner : option string;
  mrWhiteGuess : option string;
  roleDistribution : RoleDistribution;
}.

(** Assignment to the field [players], the other fields kept. *)
Definition set_players (ps : list Player.t) (g : t) : t :=
  {| players := ps; phase := phase g; currentRound := currentRound g;
     majorityWord := majorityWord g; undercoverWord := undercoverWord g;
     votingResults := votingResults g; speakingOrder := speakingOrder g;
     lastEliminatedId := lastEliminatedId g; winner := winner g;
     mrWhiteGuess := mrWhiteGuess g; roleDistribution := roleDistribution g |}.
End GameState.

(** ** [rooms/gameRoom.ts]: the class [GameRoom] *)

Module GameRoom.
Record t := {
  roomId : string;
  hostId : string;
  players : gmap string Player.t;
  gameState : GameState.t;
}.

(** [constructor(roomId, hostId, hostName)]. *)
Definition new (roomId hostId hostName : string) : t :=
  let hostPlayer := Player.literal hostId hostName in
  {| roomId := roomId;
     hostId := hostId;
     players := <[hostId := hostPlayer]> ∅;
     gameState :=
       {| GameState.players := [hostPlayer];
          GameState.phase := setup;
          GameState.currentRound := 1;
          GameState.majorityWord := "";
          GameState.undercoverWord := "";
          GameState.votingResults := None;
          GameState.speakingOrder := None;
          GameState.lastEliminatedId := None;
          GameState.winner := None;
          GameState.mrWhiteGuess := None;
          GameState.roleDistribution := {| undercovers := 1; mrWhites := 0 |} |} |}.

Definition getRoomId (r : t) : string := roomId r.
Definition getHostId (r : t) : string := hostId r.
Definition getGameState (r : t) : GameState.t := gameState r.

(** [updateGameState(newState)]: the assignment, then the [forEach] over
    the players of the new state, in order. *)
Definition updateGameState (newState : GameState.t) (r : t) : t :=
  {| roomId := roomId r;
     hostId := hostId r;
     players :=
       foldl (λ (m : gmap string Player.t) player, <[Player.id player := player]> m)
             (players r) (GameState.players newState);
     gameState := newState |}.

(** [addPlayer(playerId, playerName)]: the new player and the room after. *)
Definition addPlayer (playerId playerName : string) (r : t) : Player.t * t :=
  let newPlayer := Player.literal playerId playerName in
  (newPlayer,
   {| roomId := roomId r;
      hostId := hostId r;
      players := <[playerId := newPlayer]> (players r);
      gameState :=
        GameState.set_players
          (GameState.players (gameState r) ++ [newPlayer]) (gameState r) |}).

(** [removePlayer(playerId)]. *)
Definition removePlayer (playerId : string) (r : t) : t :=
  {| roomId := roomId r;
     hostId := hostId r;
     players := delete playerId (players r);
     gameState :=
       GameState.set_players
         (filter (λ p, Player.id p ≠ playerId) (GameState.players (gameState r)))
         (gameState r) |}.

Definition getPlayer (playerId : string) (r : t) : option Player.t :=
  players r !! playerId.

(** [isEmpty()]: [this.players.size === 0]. *)
Definition isEmpty (r : t) : bool := Nat.eqb (size (players r)) 0.
End GameRoom.

(** ** [rooms/roomManager.ts]: the class [RoomManager]

    The manager's only field is the map [rooms]; a manager is that map.  A
    room object held in the map is mutated in place by the handlers, which
    the model writes as storing the room back under its key ([putRoom]). *)

Module RoomManager.
Abbreviation t := (gmap string GameRoom.t).

Definition empty : t := ∅.

(** The [while (this.rooms.has(roomId))] loop of [createRoom].  The source
    has no bound on the number of rounds; [fuel] is the number of rounds
    the model may run, and [None] means that they did not suffice.  Each
    call of [generateRoomId] reads the next six draws of [random]. *)
Fixpoint createRoom_loop (fuel : nat) (random : nat → Q) (rooms : t)
    (roomId : string) : option string :=
  match rooms !! roomId with
  | None => Some roomId
  | Some _ =>
      match fuel with
      | O => None
      | S fuel' =>
          createRoom_loop fuel' (λ i, random (6 + i)%nat) rooms
            (Helpers.generateRoomId random)
      end
  end.

(** [createRoom(hostId, hostName)]: the room code and the manager after. *)
Definition createRoom (fuel : nat) (random : nat → Q)
    (hostId hostName : string) (rooms : t) : option (string * t) :=
  match createRoom_loop fuel (λ i, random (6 + i)%nat) rooms
          (Helpers.generateRoomId random) with
  | None => None
  | Some roomId =>
      Some (roomId, <[roomId := GameRoom.new roomId hostId hostName]> rooms)
  end.

Definition getRoom (roomId : string) (rooms : t) : option GameRoom.t :=
  rooms !! roomId.

(** [removeRoom(roomId)]: what [Map.delete] returns and the manager after. *)
Definition removeRoom (roomId : string) (rooms : t) : bool * t :=
  (bool_decide (is_Some (rooms !! roomId)), delete roomId rooms).

(** The write-back of a room mutated through the reference [getRoom] gave. *)
Definition putRoom (roomId : string) (room : GameRoom.t) (rooms : t) : t :=
  <[roomId := room]> rooms.

Definition getRoomCount (rooms : t) : nat := size rooms.

(** [cleanupEmptyRooms()]: the [for ... of this.rooms.entries()] loop,
    deleting from the map it walks.  The entries are those the map had when
    the loop began (a deleted entry is not visited again), and the deletions
    commute, so the order of the walk does not show in the result. *)
Definition cleanupEmptyRooms (rooms : t) : t :=
  map_fold
    (λ (roomId : string) (room : GameRoom.t) (acc : t),
       if GameRoom.isEmpty room then delete roomId acc else acc)
    rooms rooms.
End RoomManager.

(** ** [socket/gameHandlers.ts]: the event handlers *)

(** The server's mutable state: the singleton [roomManager] and the two
    module-level maps of [utils/helpers.ts]. *)
Record Server := {
  rooms : gmap string GameRoom.t;
  socketToPlayer : gmap string string;
  playerToRoom : gmap string string;
}.

Definition initial : Server :=
  {| rooms := RoomManager.empty; socketToPlayer := ∅; playerToRoom := ∅ |}.

(** The server-to-client messages the handlers emit. *)
Inductive ServerMessage :=
| gameState_msg (state : GameState.t)
| playerJoined_msg (player : Player.t)
| playerLeft_msg (playerId : string)
| submitVote_msg (voterId targetId : string)
| submitDescription_msg (playerId description : string)
| submitMrWhiteGuess_msg (guess : string).

(** What a handler does to the outside, in the order it does it. *)
Inductive Effect :=
| socket_join (socket roomId : string)              (* socket.join(roomId) *)
| socket_leave (socket roomId : string)             (* socket.leave(roomId) *)
| callback_createRoom (roomId : string)             (* callback(roomId) *)
| callback_joinRoom (success : bool) (message : option string)
| socket_to_emit (socket roomId : string) (m : ServerMessage)
                                                    (* socket.to(roomId).emit *)
| socket_emit (socket : string) (m : ServerMessage) (* socket.emit *)
| io_to_emit (target : string) (m : ServerMessage). (* io.to(target).emit *)

(** The test [if (!x) return] on the result of a [Map.get] of strings:
    [undefined] and the empty string are both falsy. *)
Definition truthy (x : option string) : option string :=
  match x with
  | Some s => if String.eqb s "" then None else Some s
  | None => None
  end.

(** [socket.on('createRoom', (username, callback) => ...)] for the socket
    with id [socket]. *)
Definition on_createRoom (fuel : nat) (random : nat → Q)
    (socket username : string) (s : Server) : option (Server * list Effect) :=
  match RoomManager.createRoom fuel random socket username (rooms s) with
  | None => None
  | Some (roomId, rooms') =>
      Some ({| rooms := rooms';
               socketToPlayer := <[socket := socket]> (socketToPlayer s);
               playerToRoom := <[socket := roomId]> (playerToRoom s) |},
            [socket_join socket roomId; callback_createRoom roomId])
  end.

(** [socket.on('joinRoom', (roomId, username, callback) => ...)]. *)
Definition on_joinRoom (socket roomId username : string) (s : Server)
    : Server * list Effect :=
  match RoomManager.getRoom roomId (rooms s) with
  | None => (s, [callback_joinRoom false (Some "Room not found")])
  | Some room =>
      let '(player, room') := GameRoom.addPlayer socket username room in
      ({| rooms := RoomManager.putRoom roomId room' (rooms s);
          socketToPlayer := <[socket := socket]> (socketToPlayer s);
          playerToRoom := <[socket := roomId]> (playerToRoom s) |},
       [socket_join socket roomId;
        socket_to_emit socket roomId (playerJoined_msg player);
        socket_emit socket (gameState_msg (GameRoom.getGameState room'));
        callback_joinRoom true None])
  end.

(** [socket.on('updateGameState', (state) => ...)]. *)
Definition on_updateGameState (socket : string) (state : GameState.t)
    (s : Server) : Server * list Effect :=
  match truthy (socketToPlayer s !! socket) with
  | None => (s, [])
  | Some playerId =>
      match truthy (playerToRoom s !! playerId) with
      | None => (s, [])
      | Some roomId =>
          match RoomManager.getRoom roomId (rooms s) with
          | None => (s, [])
          | Some room =>
              if negb (String.eqb (GameRoom.getHostId room) playerId)
              then (s, [])
              else
                ({| rooms :=
                      RoomManager.putRoom roomId
                        (GameRoom.updateGameState state room) (rooms s);
                    socketToPlayer := socketToPlayer s;
                    playerToRoom := playerToRoom s |},
                 [socket_to_emit socket roomId (gameState_msg state)])
          end
      end
  end.

(** The three handlers that forward a message to the host
    ([submitVote], [submitDescription], [submitMrWhiteGuess]). *)
Definition forward_to_host (socket : string) (m : ServerMessage) (s : Server)
    : Server * list Effect :=
  match truthy (socketToPlayer s !! socket) with
  | None => (s, [])
  | Some playerId =>
      match truthy (playerToRoom s !! playerId) with
      | None => (s, [])
      | Some roomId =>
          match RoomManager.getRoom roomId (rooms s) with
          | None => (s, [])
          | Some room => (s, [io_to_emit (GameRoom.getHostId room) m])
          end
      end
  end.

Definition on_submitVote (socket voterId targetId : string) :=
  forward_to_host socket (submitVote_msg voterId targetId).
Definition on_submitDescription (socket playerId description : string) :=
  forward_to_host socket (submitDescription_msg playerId description).
Definition on_submitMrWhiteGuess (socket guess : string) :=
  forward_to_host socket (submitMrWhiteGuess_msg guess).

(** [handlePlayerDisconnect(socket)], the body of both the [leaveRoom] and
    the [disconnect] handler. *)
Definition handlePlayerDisconnect (socket : string) (s : Server)
    : Server * list Effect :=
  match truthy (socketToPlayer s !! socket) with
  | None => (s, [])
  | Some playerId =>
      match truthy (playerToRoom s !! playerId) with
      | None => (s, [])
      | Some roomId =>
          match RoomManager.getRoom roomId (rooms s) with
          | None => (s, [])
          | Some room =>
              let room' := GameRoom.removePlayer playerId room in
              let rooms1 := RoomManager.putRoom roomId room' (rooms s) in
              ({| rooms :=
                    if GameRoom.isEmpty room'
                    then snd (RoomManager.removeRoom roomId rooms1)
                    else rooms1;
                  socketToPlayer := delete socket (socketToPlayer s);
                  playerToRoom := delete playerId (playerToRoom s) |},
               [socket_to_emit socket roomId (playerLeft_msg playerId);
                socket_leave socket roomId])
          end
      end
  end.

Definition on_leaveRoom := handlePlayerDisconnect.
Definition on_disconnect := handlePlayerDisconnect.

(** The events a client can send, and the dispatch on them.  A [createRoom]
    event carries the draws [Math.random()] yields while it is handled. *)
Inductive ClientEvent :=
| createRoom (random : nat → Q) (username : string)
| joinRoom (roomId username : string)
| updateGameState (state : GameState.t)
| submitVote (voterId targetId : string)
| submitDescription (playerId description : string)
| submitMrWhiteGuess (guess : string)
| leaveRoom
| disconnect.

Definition handle (fuel : nat) (socket : string) (e : ClientEvent) (s : Server)
    : option (Server * list Effect) :=
  match e with
  | createRoom random username => on_createRoom fuel random socket username s
  | joinRoom roomId username => Some (on_joinRoom socket roomId username s)
  | updateGameState state => Some (on_updateGameState socket state s)
  | submitVote v t => Some (on_submitVote socket v t s)
  | submitDescription p d => Some (on_submitDescription socket p d s)
  | submitMrWhiteGuess g => Some (on_submitMrWhiteGuess socket g s)
  | leaveRoom => Some (on_leaveRoom socket s)
  | disconnect => Some (on_disconnect socket s)
  end.

(** ** Predicates of the specification *)

(** The members of a room are the keys of its [players] map. *)
Definition members (r : GameRoom.t) : gset string := dom (GameRoom.players r).

(** Binding table and membership agree: an identity is bound to a room code
    exactly when it is a member of the room stored under that code. *)
Definition consistent (s : Server) : Prop :=
  ∀ (p c : string),
    playerToRoom s !! p = Some c ↔
    ∃ r, rooms s !! c = Some r ∧ p ∈ members r.

(** One half of [consistent]: who is bound to a code is a member there. *)
Definition bound_is_member (s : Server) : Prop :=
  ∀ (p c : string),
    playerToRoom s !! p = Some c →
    ∃ r, rooms s !! c = Some r ∧ p ∈ members r.

(** The host of every live room is one of its members. *)
Definition host_is_member (s : Server) : Prop :=
  ∀ (c : string) (r : GameRoom.t),
    rooms s !! c = Some r → GameRoom.hostId r ∈ members r.

(** The connection [socket] is bound, as the identity [playerId], to the
    room stored under [roomId].  (The handlers only ever store a socket's own
    id as its identity.) *)
Definition bound_to (s : Server) (socket playerId roomId : string)
    (room : GameRoom.t) : Prop :=
  socketToPlayer s !! socket = Some playerId ∧
  playerToRoom s !! playerId = Some roomId ∧
  rooms s !! roomId = Some room.

(** Two stored states agree on every field other than [players]. *)
Definition same_but_players (g g' : GameState.t) : Prop :=
  GameState.phase g' = GameState.phase g ∧
  GameState.currentRound g' = GameState.currentRound g ∧
  GameState.majorityWord g' = GameState.majorityWord g ∧
  GameState.undercoverWord g' = GameState.undercoverWord g ∧
  GameState.votingResults g' = GameState.votingResults g ∧
  GameState.speakingOrder g' = GameState.speakingOrder g ∧
  GameState.lastEliminatedId g' = GameState.lastEliminatedId g ∧
  GameState.winner g' = GameState.winner g ∧
  GameState.mrWhiteGuess g' = GameState.mrWhiteGuess g ∧
  GameState.roleDistribution g' = GameState.roleDistribution g.

(** How the [players] list of a stored state moves without a publish. *)
Inductive players_step (ps : list Player.t) : list Player.t → Prop :=
| players_kept : players_step ps ps
| players_pushed (id name : string) :
    players_step ps (ps ++ [Player.literal id name])
| players_filtered (id : string) :
    players_step ps (filter (λ p, Player.id p ≠ id) ps).

(** The identities listed in a published state. *)
Definition listed (state : GameState.t) : gset string :=
  list_to_set (Player.id <$> GameState.players state).

Definition is_publish (e : ClientEvent) : bool :=
  match e with updateGameState _ => true | _ => false end.

(** The events that bind the sending connection to a room. *)
Definition binds (e : ClientEvent) : bool :=
  match e with createRoom _ _ | joinRoom _ _ => true | _ => false end.

Definition departs (e : ClientEvent) : bool :=
  match e with leaveRoom | disconnect => true | _ => false end.

(** The event takes the host of the room stored under [c] out of that room:
    a leave or disconnect of a connection that is bound to [c] as the
    identity the room records as its host. *)
Definition host_departs (s : Server) (socket : string) (e : ClientEvent)
    (c : string) : Prop :=
  departs e = true ∧
  ∃ room, bound_to s socket (GameRoom.hostId room) c room.

(** The record that a published state carries for an identity: the last one
    in its players list with that id ([None] when it lists none). *)
Definition published_record (state : GameState.t) (q : string) : option Player.t :=
  last (filter (λ p, Player.id p = q) (GameState.players state)).

(** What one handled event does to the server state, read off the handlers:
    nothing (the silent returns, the forwarding handlers, a failed join), or
    one of the four mutations. *)
Inductive change (socket : string) (s : Server) : ClientEvent → Server → Prop :=
| change_none (e : ClientEvent) :
    change socket s e s
| change_create (random : nat → Q) (username code : string) :
    rooms s !! code = None →
    change socket s (createRoom random username)
      {| rooms := <[code := GameRoom.new code socket username]> (rooms s);
         socketToPlayer := <[socket := socket]> (socketToPlayer s);
         playerToRoom := <[socket := code]> (playerToRoom s) |}
| change_join (roomId username : string) (room : GameRoom.t) :
    rooms s !! roomId = Some room →
    change socket s (joinRoom roomId username)
      {| rooms := <[roomId := (GameRoom.addPlayer socket username room).2]> (rooms s);
         socketToPlayer := <[socket := socket]> (socketToPlayer s);
         playerToRoom := <[socket := roomId]> (playerToRoom s) |}
| change_publish (state : GameState.t) (playerId roomId : string) (room : GameRoom.t) :
    bound_to s socket playerId roomId room →
    GameRoom.hostId room = playerId →
    change socket s (updateGameState state)
      {| rooms := <[roomId := GameRoom.updateGameState state room]> (rooms s);
         socketToPlayer := socketToPlayer s;
         playerToRoom := playerToRoom s |}
| change_depart (e : ClientEvent) (playerId roomId : string) (room : GameRoom.t) :
    departs e = true →
    bound_to s socket playerId roomId room →
    change socket s e
      {| rooms :=
           if GameRoom.isEmpty (GameRoom.removePlayer playerId room)
           then delete roomId (rooms s)
           else <[roomId := GameRoom.removePlayer playerId room]> (rooms s);
         socketToPlayer := delete socket (socketToPlayer s);
         playerToRoom := delete playerId (playerToRoom s) |}.

(** The code that the [k]-th call of [generateRoomId] within one [createRoom]
    returns ([k = 0] is the call before the loop). *)
Definition nth_code (random : nat → Q) (k : nat) : string :=
  Helpers.generateRoomId (λ i, random (6 * k + i)%nat).

(** The symbols of a string, and those of the generator's literal. *)
Definition symbols (s : string) : list ascii := list_ascii_of_string s.

Definition alphabet : list ascii := symbols Helpers.characters.

(** ** Reachable states and what holds in them *)

(** What the environment guarantees of an event: Socket.IO gives every
    connection a non-empty id, and [Math.random()] yields values in [0, 1). *)
Definition event_ok (socket : string) (e : ClientEvent) : Prop :=
  socket ≠ "" ∧
  match e with
  | createRoom random _ => Helpers.unit_draws random
  | _ => True
  end.

(** The states the server gets into from its initial state by handling
    events. *)
Inductive reachable : Server → Prop :=
| reachable_initial : reachable initial
| reachable_handle (fuel : nat) (socket : string) (e : ClientEvent)
    (s s' : Server) (out : list Effect) :
    reachable s → event_ok socket e →
    handle fuel socket e s = Some (s', out) →
    reachable s'.

(** A string is a room code: six symbols of the generator's alphabet. *)
Definition room_code (c : string) : Prop :=
  String.length c = 6%nat ∧ Forall (λ a, a ∈ alphabet) (symbols c).

(** Every room is stored under its own code, and that is a room code. *)
Definition keyed_by_code (s : Server) : Prop :=
  ∀ (c : string) (r : GameRoom.t),
    rooms s !! c = Some r → GameRoom.roomId r = c ∧ room_code c.

(** The directory holds no room without members. *)
Definition no_empty_room (s : Server) : Prop :=
  ∀ (c : string) (r : GameRoom.t),
    rooms s !! c = Some r → GameRoom.isEmpty r = false.

(** [socketToPlayer] maps a socket id to itself, and it has an entry exactly
    for the identities [playerToRoom] has one for. *)
Definition bindings_coupled (s : Server) : Prop :=
  (∀ k v : string, socketToPlayer s !! k = Some v → v = k ∧ k ≠ "") ∧
  dom (socketToPlayer s) = dom (playerToRoom s).

(** Whoever the stored state of a room lists is a member of the room. *)
Definition listed_are_members (s : Server) : Prop :=
  ∀ (c : string) (r : GameRoom.t),
    rooms s !! c = Some r → listed (GameRoom.gameState r) ⊆ members r.

(** The stored state lists exactly the members. *)
Definition in_sync (r : GameRoom.t) : Prop :=
  listed (GameRoom.gameState r) = members r.

(** ** Draws that make the generator return a given code *)

(** The first position of a symbol in a string (0 when it does not occur). *)
Fixpoint position (a : ascii) (s : string) : nat :=
  match s with
  | EmptyString => 0
  | String b s' => if Ascii.eqb a b then 0 else S (position a s')
  end.

(** The draw [k / 32] for the symbol at position [k] of [characters]. *)
Definition draw_of (a : ascii) : Q :=
  Z.of_nat (position a Helpers.characters) # 32.

Definition draws_for (code : string) : nat → Q :=
  λ i, match String.get i code with
       | Some a => draw_of a
       | None => 0%Q
       end.

(** ** Sample data for the examples *)

Definition zeros : nat → Q := λ _, 0%Q.
Definition halves : nat → Q := λ _, (1 # 2)%Q.

(** The state a handler leaves, and [s] itself where the model ran out of
    fuel. *)
Definition after (s : Server) (r : option (Server * list Effect)) : Server :=
  match r with Some (s', _) => s' | None => s end.

(** "h" creates a room; the draws make its code "AAAAAA". *)
Definition s_created : Server :=
  after initial (handle 0 "h" (createRoom zeros "Alice") initial).

(** Then "f" joins it. *)
Definition s_joined : Server :=
  after s_created (handle 0 "f" (joinRoom "AAAAAA" "Bob") s_created).

(** Then the host "h" disconnects while "f" remains. *)
Definition s_headless : Server :=
  after s_joined (handle 0 "h" disconnect s_joined).

(** Instead, "g" creates a second room (code "SSSSSS") and "h", still bound
    to "AAAAAA", joins it. *)
Definition s_two_rooms : Server :=
  after s_created (handle 0 "g" (createRoom halves "Gil") s_created).

Definition s_rejoined : Server :=
  after s_two_rooms (handle 0 "h" (joinRoom "SSSSSS" "Alice") s_two_rooms).

Definition room0 : GameRoom.t := GameRoom.new "AAAAAA" "h" "Alice".

(** The room "AAAAAA" once "f" has joined. *)
Definition room_joined : GameRoom.t := (GameRoom.addPlayer "f" "Bob" room0).2.

(** A state whose [players] list names someone who never joined. *)
Definition state_with_stranger : GameState.t :=
  GameState.set_players [Player.literal "x" "Eve"] (GameRoom.gameState room0).

(** Projections of the records built by the room operations, without
    computing inside the maps. *)
Ltac room_simpl :=
  unfold members, listed, GameRoom.new, GameRoom.addPlayer, GameRoom.removePlayer,
    GameRoom.updateGameState, GameRoom.getHostId, GameRoom.getGameState,
    GameState.set_players in *;
  cbn [GameRoom.players GameRoom.hostId GameRoom.roomId GameRoom.gameState
       GameState.players GameState.phase GameState.currentRound
       GameState.majorityWord GameState.undercoverWord GameState.votingResults
       GameState.speakingOrder GameState.lastEliminatedId GameState.winner
       GameState.mrWhiteGuess GameState.roleDistribution fst snd] in *.

(** * Properties *)

Section GeneratorFacts.
Import Helpers.

Lemma charAt_length (s : string) (pos : Z) :
  0 ≤ pos < Z.of_nat (String.length s) →
  String.length (charAt s pos) = 1%nat.
Proof.
  intros [Hlo Hhi]. unfold charAt.
  destruct (pos <? 0) eqn:E; [apply Z.ltb_lt in E; lia|].
  destruct (String.get (Z.to_nat pos) s) eqn:G; [reflexivity|].
  exfalso.
  assert (Hlt : (Z.to_nat pos < String.length s)%nat) by lia.
  clear -G Hlt. revert G Hlt. generalize (Z.to_nat pos) as k.
  induction s as [|a s IH]; intros k G Hlt; simpl in *; [lia|].
  destruct k; [discriminate|]. apply (IH k G). lia.
Qed.

Lemma random_index_range (r : Q) :
  (0 <= r)%Q → (r < 1)%Q →
  0 ≤ random_index r < Z.of_nat (String.length characters).
Proof.
  intros H0 H1. unfold random_index.
  set (n := Z.of_nat (String.length characters)).
  assert (Hn : 0 < n) by (subst n; vm_compute; reflexivity).
  split.
  - change 0 with (Qfloor (inject_Z 0)).
    apply Qfloor_resp_le.
    apply Qmult_le_0_compat; [exact H0|].
    change 0%Q with (inject_Z 0). rewrite <- Zle_Qle. lia.
  - apply Z.lt_nge. intros Hge.
    assert (Hq : (inject_Z n <= r * inject_Z n)%Q).
    { eapply Qle_trans; [|apply Qfloor_le].
      rewrite <- Zle_Qle. exact Hge. }
    assert (Hlt : (r * inject_Z n < 1 * inject_Z n)%Q).
    { apply Qmult_lt_compat_r; [|exact H1].
      change 0%Q with (inject_Z 0). rewrite <- Zlt_Qlt. exact Hn. }
    rewrite Qmult_1_l in Hlt.
    exact (Qlt_not_le _ _ Hlt Hq).
Qed.

End GeneratorFacts.

(** ** The room code generator *)

Section GeneratorAlphabet.
Import Helpers.

Lemma symbols_app (s t : string) : symbols (s ++ t) = (symbols s ++ symbols t)%list.
Proof.
  unfold symbols. induction s as [|a s IH]; simpl; [reflexivity|].
  by rewrite IH.
Qed.

Lemma symbols_length (s : string) : length (symbols s) = String.length s.
Proof. unfold symbols. induction s; simpl; congruence. Qed.

Lemma get_symbols (s : string) (k : nat) (c : ascii) :
  String.get k s = Some c → c ∈ symbols s.
Proof.
  revert k. unfold symbols.
  induction s as [|a s IH]; intros k G; simpl in *; [discriminate|].
  destruct k as [|k].
  - injection G as ->. apply list_elem_of_here.
  - apply list_elem_of_further. by apply (IH k).
Qed.

Lemma charAt_symbols (s : string) (pos : Z) :
  Forall (λ c, c ∈ symbols s) (symbols (charAt s pos)).
Proof.
  unfold charAt. destruct (pos <? 0); [constructor|].
  destruct (String.get (Z.to_nat pos) s) eqn:G; [|constructor].
  repeat constructor. by eapply get_symbols.
Qed.

Lemma generateRoomId_loop_symbols (n i : nat) (random : nat → Q) (result : string) :
  Forall (λ c, c ∈ alphabet) (symbols result) →
  Forall (λ c, c ∈ alphabet) (symbols (generateRoomId_loop n i random result)).
Proof.
  revert i result. induction n as [|n IH]; intros i result Hres; simpl; [done|].
  apply IH. rewrite symbols_app. apply Forall_app. split; [done|].
  apply charAt_symbols.
Qed.

Lemma generateRoomId_loop_length (n i : nat) (random : nat → Q) (result : string) :
  unit_draws random →
  String.length (generateRoomId_loop n i random result)
  = (String.length result + n)%nat.
Proof.
  intros Hu. revert i result.
  induction n as [|n IH]; intros i result; simpl; [lia|].
  rewrite IH, <- !symbols_length, symbols_app, length_app, !symbols_length.
  rewrite charAt_length; [lia|].
  destruct (Hu i). by apply random_index_range.
Qed.

Lemma alphabet_NoDup : NoDup alphabet.
Proof. refine (bool_decide_unpack (NoDup alphabet) _). vm_compute. exact I. Qed.

(** A duplicate-free list inside [alphabet] has at most 32 symbols. *)
Lemma within_alphabet_length (l : list ascii) :
  NoDup l → (∀ c, c ∈ l → c ∈ alphabet) → (length l ≤ 32)%nat.
Proof.
  intros Hnd Hin.
  change 32%nat with (length alphabet).
  apply submseteq_length, NoDup_submseteq; assumption.
Qed.

End GeneratorAlphabet.

(** C3 (as amended): for draws in [0, 1), [generateRoomId] returns a string of
    6 characters, each taken from the literal [characters]; that alphabet has
    32 pairwise different symbols (not 33), and none of 0, O, 1, I. *)
Theorem generateRoomId_six_of_32 (random : nat → Q) :
  Helpers.unit_draws random →
  String.length (Helpers.generateRoomId random) = 6%nat ∧
  Forall (λ c, c ∈ alphabet) (symbols (Helpers.generateRoomId random)) ∧
  length alphabet = 32%nat ∧
  NoDup alphabet ∧
  Forall (λ c, c ∉ alphabet) (symbols "0O1I").
Proof.
  intros Hu. split; [|split; [|split; [|split]]].
  - unfold Helpers.generateRoomId.
    by rewrite generateRoomId_loop_length.
  - apply generateRoomId_loop_symbols. constructor.
  - reflexivity.
  - apply alphabet_NoDup.
  - refine (bool_decide_unpack (Forall _ _) _). vm_compute. exact I.
Qed.

Lemma zeros_unit_draws : Helpers.unit_draws zeros.
Proof. intros i. unfold zeros. split; [apply Qle_refl | reflexivity]. Qed.

Lemma generateRoomId_six_of_32_witness :
  Helpers.unit_draws zeros ∧
  String.length (Helpers.generateRoomId zeros) = 6%nat.
Proof.
  split; [exact zeros_unit_draws|].
  exact (proj1 (generateRoomId_six_of_32 zeros zeros_unit_draws)).
Defined.

(** C3 (as stated) fails: the symbols that [generateRoomId] can put into a
    code are not 33 in number; no duplicate-free list of 33 symbols consists
    of symbols the generator produces. *)
Lemma generateRoomId_not_33_symbols :
  ¬ ∃ l : list ascii,
      NoDup l ∧ length l = 33%nat ∧
      ∀ c, c ∈ l →
        ∃ random, Helpers.unit_draws random ∧
                  c ∈ symbols (Helpers.generateRoomId random).
Proof.
  intros (l & Hnd & Hlen & Hprod).
  assert (length l ≤ 32)%nat; [|lia].
  apply within_alphabet_length; [done|].
  intros c Hc. destruct (Hprod c Hc) as (random & _ & Hin).
  pose proof (generateRoomId_loop_symbols 6 0 random "" (Forall_nil_2 _)) as HF.
  rewrite Forall_forall in HF. by apply HF.
Qed.

(** ** The class [GameRoom] *)

Section RoomFacts.
Implicit Types (r : GameRoom.t) (m : gmap string Player.t).

Lemma members_new (roomId hostId hostName : string) :
  members (GameRoom.new roomId hostId hostName) = {[hostId]}.
Proof. room_simpl. rewrite dom_insert_L, dom_empty_L. set_solver. Qed.

Lemma members_addPlayer (id name : string) r :
  members (GameRoom.addPlayer id name r).2 = {[id]} ∪ members r.
Proof. room_simpl. apply dom_insert_L. Qed.

Lemma members_removePlayer (id : string) r :
  members (GameRoom.removePlayer id r) = members r ∖ {[id]}.
Proof. room_simpl. apply dom_delete_L. Qed.

(** The [forEach] of [updateGameState] on the keys. *)
Lemma dom_set_each (l : list Player.t) m :
  dom (foldl (λ (m : gmap string Player.t) player, <[Player.id player := player]> m) m l)
  = dom m ∪ list_to_set (Player.id <$> l).
Proof.
  revert m. induction l as [|p l IH]; intros m; simpl.
  - set_solver.
  - rewrite IH, dom_insert_L. set_solver.
Qed.

(** ... and on the records of those the new state does not list. *)
Lemma lookup_set_each (l : list Player.t) m (id : string) :
  id ∉ (list_to_set (Player.id <$> l) : gset string) →
  foldl (λ (m : gmap string Player.t) player, <[Player.id player := player]> m) m l !! id
  = m !! id.
Proof.
  revert m. induction l as [|p l IH]; intros m Hid; simpl in *; [done|].
  rewrite IH by set_solver. apply lookup_insert_ne. set_solver.
Qed.

Lemma members_updateGameState (state : GameState.t) r :
  members (GameRoom.updateGameState state r) = members r ∪ listed state.
Proof. room_simpl. apply dom_set_each. Qed.

Lemma isEmpty_members r : GameRoom.isEmpty r = true ↔ members r = ∅.
Proof.
  unfold GameRoom.isEmpty, members. rewrite Nat.eqb_eq, map_size_empty_iff.
  split; [intros ->; apply dom_empty_L | apply dom_empty_inv_L].
Qed.

Lemma isEmpty_false_members r (p : string) :
  p ∈ members r → GameRoom.isEmpty r = false.
Proof.
  intros Hp. destruct (GameRoom.isEmpty r) eqn:E; [|done].
  apply isEmpty_members in E. set_solver.
Qed.

End RoomFacts.

(** C7 (as stated) fails: [addPlayer] for an identity that is a member
    already is not without effect; the players list of the stored state gets
    a second entry. *)
Lemma addPlayer_twice_differs :
  "h" ∈ members room0 ∧
  GameState.players (GameRoom.gameState (GameRoom.addPlayer "h" "Alice" room0).2)
  ≠ GameState.players (GameRoom.gameState room0).
Proof.
  split.
  - unfold room0. rewrite members_new. set_solver.
  - unfold room0. room_simpl. discriminate.
Qed.

(** C7 (as amended): [addPlayer] for an identity that is a member already
    keeps the member set, puts the new record in place of that member's old
    one and leaves the other records alone; it appends the new record to the
    players list of the stored state once more, so that list grows by one. *)
Theorem addPlayer_again (id name : string) (r : GameRoom.t) :
  id ∈ members r →
  let r' := (GameRoom.addPlayer id name r).2 in
  members r' = members r ∧
  GameRoom.players r' !! id = Some (Player.literal id name) ∧
  (∀ q, q ≠ id → GameRoom.players r' !! q = GameRoom.players r !! q) ∧
  GameState.players (GameRoom.gameState r')
  = (GameState.players (GameRoom.gameState r) ++ [Player.literal id name])%list ∧
  length (GameState.players (GameRoom.gameState r'))
  = S (length (GameState.players (GameRoom.gameState r))).
Proof.
  intros Hin r'. subst r'. split; [|split; [|split; [|split]]].
  - rewrite members_addPlayer. set_solver.
  - room_simpl. apply lookup_insert_eq.
  - intros q Hq. room_simpl. by apply lookup_insert_ne.
  - reflexivity.
  - room_simpl. rewrite length_app. simpl. lia.
Qed.

Lemma addPlayer_again_witness :
  "h" ∈ members room0 ∧
  members (GameRoom.addPlayer "h" "Al" room0).2 = members room0.
Proof.
  assert (H : "h" ∈ members room0)
    by (unfold room0; rewrite members_new; set_solver).
  split; [exact H|].
  exact (proj1 (addPlayer_again "h" "Al" room0 H)).
Defined.

(** ** The event handlers *)

Section HandlerFacts.
Implicit Types (s : Server) (room : GameRoom.t).

Lemma truthy_Some (x : string) : x ≠ "" → truthy (Some x) = Some x.
Proof.
  intros Hx. unfold truthy.
  destruct (String.eqb x "") eqn:E; [|reflexivity].
  by apply String.eqb_eq in E.
Qed.

Lemma truthy_inv (o : option string) (x : string) :
  truthy o = Some x → o = Some x.
Proof.
  unfold truthy. destruct o as [y|]; [|discriminate].
  destruct (String.eqb y ""); [discriminate|]. congruence.
Qed.

(** The three lookups at the head of [updateGameState], of the forwarding
    handlers and of [handlePlayerDisconnect] succeed for a bound socket. *)
Lemma on_updateGameState_bound s socket playerId roomId room state :
  bound_to s socket playerId roomId room → playerId ≠ "" → roomId ≠ "" →
  on_updateGameState socket state s =
    if negb (String.eqb (GameRoom.getHostId room) playerId)
    then (s, [])
    else ({| rooms := RoomManager.putRoom roomId
                        (GameRoom.updateGameState state room) (rooms s);
             socketToPlayer := socketToPlayer s;
             playerToRoom := playerToRoom s |},
          [socket_to_emit socket roomId (gameState_msg state)]).
Proof.
  intros (Hs & Hp & Hr) Hpid Hrid. unfold on_updateGameState.
  rewrite Hs, (truthy_Some _ Hpid), Hp, (truthy_Some _ Hrid).
  unfold RoomManager.getRoom. by rewrite Hr.
Qed.

Lemma handlePlayerDisconnect_bound s socket playerId roomId room :
  bound_to s socket playerId roomId room → playerId ≠ "" → roomId ≠ "" →
  handlePlayerDisconnect socket s =
    (let room' := GameRoom.removePlayer playerId room in
     let rooms1 := RoomManager.putRoom roomId room' (rooms s) in
     ({| rooms := if GameRoom.isEmpty room'
                  then snd (RoomManager.removeRoom roomId rooms1)
                  else rooms1;
         socketToPlayer := delete socket (socketToPlayer s);
         playerToRoom := delete playerId (playerToRoom s) |},
      [socket_to_emit socket roomId (playerLeft_msg playerId);
       socket_leave socket roomId])).
Proof.
  intros (Hs & Hp & Hr) Hpid Hrid. unfold handlePlayerDisconnect.
  rewrite Hs, (truthy_Some _ Hpid), Hp, (truthy_Some _ Hrid).
  unfold RoomManager.getRoom. by rewrite Hr.
Qed.

(** Either [handlePlayerDisconnect] returns before touching anything, or the
    socket was bound and the removal ran. *)
Lemma handlePlayerDisconnect_cases s socket :
  handlePlayerDisconnect socket s = (s, []) ∨
  ∃ playerId roomId room,
    bound_to s socket playerId roomId room ∧ playerId ≠ "" ∧ roomId ≠ "".
Proof.
  unfold handlePlayerDisconnect.
  destruct (truthy (socketToPlayer s !! socket)) as [playerId|] eqn:E1; [|by left].
  destruct (truthy (playerToRoom s !! playerId)) as [roomId|] eqn:E2; [|by left].
  unfold RoomManager.getRoom.
  destruct (rooms s !! roomId) as [room|] eqn:E3; [|by left].
  right. exists playerId, roomId, room.
  pose proof (truthy_inv _ _ E1) as H1. pose proof (truthy_inv _ _ E2) as H2.
  split; [by repeat split|].
  split; intros ->.
  - rewrite H1 in E1. discriminate.
  - rewrite H2 in E2. discriminate.
Qed.

Lemma on_updateGameState_cases s socket state :
  on_updateGameState socket state s = (s, []) ∨
  ∃ playerId roomId room,
    bound_to s socket playerId roomId room ∧ playerId ≠ "" ∧ roomId ≠ "" ∧
    GameRoom.hostId room = playerId.
Proof.
  unfold on_updateGameState.
  destruct (truthy (socketToPlayer s !! socket)) as [playerId|] eqn:E1; [|by left].
  destruct (truthy (playerToRoom s !! playerId)) as [roomId|] eqn:E2; [|by left].
  unfold RoomManager.getRoom.
  destruct (rooms s !! roomId) as [room|] eqn:E3; [|by left].
  destruct (String.eqb (GameRoom.getHostId room) playerId) eqn:E4; [|by left].
  right. exists playerId, roomId, room.
  pose proof (truthy_inv _ _ E1) as H1. pose proof (truthy_inv _ _ E2) as H2.
  apply String.eqb_eq in E4.
  split; [by repeat split|].
  split; [|split; [|exact E4]]; intros ->.
  - rewrite H1 in E1. discriminate.
  - rewrite H2 in E2. discriminate.
Qed.

Lemma forward_to_host_state s socket m : (forward_to_host socket m s).1 = s.
Proof.
  unfold forward_to_host.
  repeat (match goal with |- context [match ?x with _ => _ end] => destruct x end);
    reflexivity.
Qed.

End HandlerFacts.

(** C1: for a sender bound to a room, [updateGameState] stores the published
    state exactly when the sender's identity is the room's host id: a publish
    of the host leaves the published state as the room's stored state, a
    publish of anyone else leaves the whole server state as it was and emits
    nothing. *)
Theorem publish_iff_host (s : Server) (socket playerId roomId : string)
    (room : GameRoom.t) (state : GameState.t) :
  bound_to s socket playerId roomId room → playerId ≠ "" → roomId ≠ "" →
  let '(s', out) := on_updateGameState socket state s in
  (∃ room',
     rooms s' !! roomId = Some room' ∧
     GameRoom.gameState room' =
       if decide (playerId = GameRoom.hostId room) then state
       else GameRoom.gameState room) ∧
  (playerId ≠ GameRoom.hostId room → s' = s ∧ out = []) ∧
  (playerId = GameRoom.hostId room →
     out = [socket_to_emit socket roomId (gameState_msg state)]).
Proof.
  intros Hb Hp Hr.
  rewrite (on_updateGameState_bound _ _ _ _ _ _ Hb Hp Hr).
  unfold GameRoom.getHostId.
  destruct (String.eqb (GameRoom.hostId room) playerId) eqn:E; simpl negb; cbv iota.
  - apply String.eqb_eq in E. split; [|split]; [|congruence|done].
    exists (GameRoom.updateGameState state room). split.
    + cbn [rooms]. unfold RoomManager.putRoom. apply lookup_insert_eq.
    + rewrite decide_True by done. reflexivity.
  - apply String.eqb_neq in E. split; [|split]; [|done|congruence].
    exists room. split; [by destruct Hb as (_ & _ & ?)|].
    rewrite decide_False by congruence. reflexivity.
Qed.

Lemma s_joined_bound_f : bound_to s_joined "f" "f" "AAAAAA" room_joined.
Proof. repeat split; vm_compute; reflexivity. Qed.

Lemma s_joined_bound_h : bound_to s_joined "h" "h" "AAAAAA" room_joined.
Proof. repeat split; vm_compute; reflexivity. Qed.

Lemma publish_iff_host_witness :
  bound_to s_joined "f" "f" "AAAAAA" room_joined ∧
  (on_updateGameState "f" state_with_stranger s_joined).1 = s_joined.
Proof.
  split; [exact s_joined_bound_f|].
  pose proof (publish_iff_host s_joined "f" "f" "AAAAAA" room_joined
                state_with_stranger s_joined_bound_f
                ltac:(discriminate) ltac:(discriminate)) as H.
  destruct (on_updateGameState "f" state_with_stranger s_joined) as [s' out].
  destruct H as (_ & Hn & _). apply Hn. discriminate.
Defined.

(** The [forEach] of [updateGameState], record by record: an id that the new
    state lists gets the last record listed for it, any other keeps its own. *)
Lemma lookup_set_each_last (l : list Player.t) (m : gmap string Player.t)
    (q : string) :
  foldl (λ (m : gmap string Player.t) player, <[Player.id player := player]> m) m l !! q
  = match last (filter (λ p, Player.id p = q) l) with
    | Some p => Some p
    | None => m !! q
    end.
Proof.
  revert m. induction l as [|p l IH]; intros m; [reflexivity|].
  cbn [foldl]. rewrite IH.
  destruct (decide (Player.id p = q)) as [Heq|Hne].
  - rewrite (filter_cons_True (λ p0, Player.id p0 = q) p l Heq).
    destruct (filter (λ p0, Player.id p0 = q) l) as [|p' l'] eqn:E.
    + cbn [last]. rewrite Heq. apply lookup_insert_eq.
    + rewrite last_cons_cons.
      destruct (last (p' :: l')) eqn:L; [done|]. by apply last_None in L.
  - rewrite (filter_cons_False (λ p0, Player.id p0 = q) p l Hne).
    by rewrite lookup_insert_ne.
Qed.

(** The sequence of the specification: the host publishes a state and it is
    stored; a follower then publishes another one and the stored state stays
    the one of the host. *)
Example publish_host_then_follower :
  let sA := (on_updateGameState "h" state_with_stranger s_joined).1 in
  let sB := (on_updateGameState "f" (GameRoom.gameState room0) sA).1 in
  (GameRoom.gameState <$> rooms sA !! "AAAAAA") = Some state_with_stranger ∧
  (GameRoom.gameState <$> rooms sB !! "AAAAAA") = Some state_with_stranger ∧
  (on_updateGameState "f" (GameRoom.gameState room0) sA).2 = [].
Proof. repeat split; vm_compute; reflexivity. Qed.

(** C6 (as stated) fails: an accepted publish does change the member set.
    The host "h" of room "AAAAAA" publishes a state that lists "x", who never
    joined; afterwards "x" is a member of the room. *)
Lemma publish_changes_members :
  bound_to s_created "h" "h" "AAAAAA" room0 ∧
  GameRoom.hostId room0 = "h" ∧
  ∃ room',
    rooms (on_updateGameState "h" state_with_stranger s_created).1 !! "AAAAAA"
      = Some room' ∧
    ("x" ∉ members room0) ∧ ("x" ∈ members room') ∧
    members room' ≠ members room0.
Proof.
  split; [repeat split; vm_compute; reflexivity|].
  split; [reflexivity|].
  exists (GameRoom.updateGameState state_with_stranger room0).
  split; [vm_compute; reflexivity|].
  assert (H0 : "x" ∉ members room0).
  { unfold room0. rewrite members_new. set_solver. }
  assert (H1 : "x" ∈ members (GameRoom.updateGameState state_with_stranger room0)).
  { rewrite members_updateGameState. unfold listed, state_with_stranger.
    room_simpl. set_solver. }
  split; [exact H0|]. split; [exact H1|].
  intros Heq. rewrite Heq in H1. contradiction.
Qed.

(** C6 (as amended): an accepted publish puts the published state in place
    of the stored one as a whole and keeps the room's host id and room code.
    It reads the players list of the new state and stores every record listed
    there in the member map under its id: afterwards the member map holds,
    for an id the new state lists, the record the new state has for it (the
    last one, should the id be listed more than once), and for any other id
    what it held before.  So the member set grows by the listed identities
    and loses nobody.  The other rooms and the two binding maps are
    untouched. *)
Theorem publish_accepted_frame (s : Server) (socket playerId roomId : string)
    (room : GameRoom.t) (state : GameState.t) :
  bound_to s socket playerId roomId room → playerId ≠ "" → roomId ≠ "" →
  GameRoom.hostId room = playerId →
  let s' := (on_updateGameState socket state s).1 in
  (∃ room',
     rooms s' !! roomId = Some room' ∧
     GameRoom.gameState room' = state ∧
     GameRoom.hostId room' = GameRoom.hostId room ∧
     GameRoom.roomId room' = GameRoom.roomId room ∧
     members room' = members room ∪ listed state ∧
     (∀ q, q ∉ listed state →
           GameRoom.players room' !! q = GameRoom.players room !! q) ∧
     (∀ q, GameRoom.players room' !! q =
           match published_record state q with
           | Some p => Some p
           | None => GameRoom.players room !! q
           end) ∧
     (∀ p, p ∈ GameState.players state →
           ∃ p', published_record state (Player.id p) = Some p' ∧
                 p' ∈ GameState.players state ∧ Player.id p' = Player.id p)) ∧
  (∀ c, c ≠ roomId → rooms s' !! c = rooms s !! c) ∧
  socketToPlayer s' = socketToPlayer s ∧
  playerToRoom s' = playerToRoom s.
Proof.
  intros Hb Hp Hr Hhost s'. subst s'.
  rewrite (on_updateGameState_bound _ _ _ _ _ _ Hb Hp Hr).
  assert (E : String.eqb (GameRoom.getHostId room) playerId = true)
    by (by apply String.eqb_eq).
  rewrite E. simpl negb. cbv iota. cbn [fst rooms socketToPlayer playerToRoom].
  unfold RoomManager.putRoom.
  split; [|split; [|done]].
  - exists (GameRoom.updateGameState state room).
    split; [apply lookup_insert_eq|].
    split; [reflexivity|]. split; [reflexivity|]. split; [reflexivity|].
    split; [apply members_updateGameState|].
    split; [intros q Hq; room_simpl; by apply lookup_set_each|].
    split; [intros q; unfold published_record; room_simpl;
            apply lookup_set_each_last|].
    intros p Hin. unfold published_record.
    destruct (last (filter (λ p0, Player.id p0 = Player.id p)
                      (GameState.players state))) as [p'|] eqn:L.
    + exists p'. split; [done|].
      apply last_Some in L as [l' Hl'].
      assert (Hp' : p' ∈ filter (λ p0, Player.id p0 = Player.id p)
                           (GameState.players state)).
      { rewrite Hl'. apply elem_of_app. right. apply list_elem_of_here. }
      apply list_elem_of_filter in Hp' as [? ?]. by split.
    + exfalso. apply last_None in L.
      assert (Hp' : p ∈ filter (λ p0, Player.id p0 = Player.id p)
                          (GameState.players state))
        by (by apply list_elem_of_filter).
      rewrite L in Hp'. by apply elem_of_nil in Hp'.
  - intros c Hc. by apply lookup_insert_ne.
Qed.

Lemma publish_accepted_frame_witness :
  bound_to s_joined "h" "h" "AAAAAA" room_joined ∧
  playerToRoom (on_updateGameState "h" state_with_stranger s_joined).1
  = playerToRoom s_joined.
Proof.
  split; [exact s_joined_bound_h|].
  exact (proj2 (proj2 (proj2
    (publish_accepted_frame s_joined "h" "h" "AAAAAA" room_joined
       state_with_stranger s_joined_bound_h
       ltac:(discriminate) ltac:(discriminate) eq_refl)))).
Defined.

(** C10: a [joinRoom] for a code that is in the directory succeeds whatever
    the room, the sender and the name are: the callback gets [true] (and no
    failure reply is sent), and the sender is a member of the room and bound
    to it afterwards.  Nothing about the room's size, its phase or the names
    in it is asked. *)
Theorem joinRoom_succeeds (s : Server) (socket roomId username : string)
    (room : GameRoom.t) :
  rooms s !! roomId = Some room →
  let '(s', out) := on_joinRoom socket roomId username s in
  callback_joinRoom true None ∈ out ∧
  (∀ message, callback_joinRoom false message ∉ out) ∧
  (∃ room',
     rooms s' !! roomId = Some room' ∧
     socket ∈ members room' ∧
     GameRoom.players room' !! socket = Some (Player.literal socket username) ∧
     members room' = {[socket]} ∪ members room) ∧
  playerToRoom s' !! socket = Some roomId.
Proof.
  intros Hr. unfold on_joinRoom, RoomManager.getRoom. rewrite Hr.
  destruct (GameRoom.addPlayer socket username room) as [player room'] eqn:E.
  assert (Hroom' : room' = (GameRoom.addPlayer socket username room).2)
    by (by rewrite E).
  cbn [rooms playerToRoom]. unfold RoomManager.putRoom.
  split; [|split; [|split]].
  - set_solver.
  - intros message Hin. set_solver.
  - exists room'. split; [apply lookup_insert_eq|].
    rewrite Hroom', members_addPlayer.
    split; [set_solver|]. split; [|done].
    room_simpl. apply lookup_insert_eq.
  - apply lookup_insert_eq.
Qed.

Lemma joinRoom_succeeds_witness :
  rooms s_created !! "AAAAAA" = Some room0 ∧
  playerToRoom (on_joinRoom "f" "AAAAAA" "Bob" s_created).1 !! "f" = Some "AAAAAA".
Proof.
  assert (H : rooms s_created !! "AAAAAA" = Some room0)
    by (vm_compute; reflexivity).
  split; [exact H|].
  pose proof (joinRoom_succeeds s_created "f" "AAAAAA" "Bob" room0 H) as J.
  destruct (on_joinRoom "f" "AAAAAA" "Bob" s_created) as [s' out].
  exact (proj2 (proj2 (proj2 J))).
Defined.

(** ** The retry loop of [createRoom] *)

Section CreateRoomLoop.
Variable rooms0 : gmap string GameRoom.t.

Lemma generateRoomId_loop_ext (n i : nat) (r1 r2 : nat → Q) (result : string) :
  (∀ k, r1 k = r2 k) →
  Helpers.generateRoomId_loop n i r1 result
  = Helpers.generateRoomId_loop n i r2 result.
Proof.
  intros Hext. revert i result.
  induction n as [|n IH]; intros i result; simpl; [reflexivity|].
  by rewrite Hext, IH.
Qed.

Lemma generateRoomId_ext (r1 r2 : nat → Q) :
  (∀ k, r1 k = r2 k) → Helpers.generateRoomId r1 = Helpers.generateRoomId r2.
Proof. intros Hext. by apply generateRoomId_loop_ext. Qed.

Lemma createRoom_loop_ext (fuel : nat) (r1 r2 : nat → Q) (roomId : string) :
  (∀ k, r1 k = r2 k) →
  RoomManager.createRoom_loop fuel r1 rooms0 roomId
  = RoomManager.createRoom_loop fuel r2 rooms0 roomId.
Proof.
  revert r1 r2 roomId.
  induction fuel as [|fuel IH]; intros r1 r2 roomId Hext; simpl; [reflexivity|].
  destruct (rooms0 !! roomId); [|reflexivity].
  rewrite (generateRoomId_ext r1 r2 Hext).
  apply IH. intros k. apply Hext.
Qed.


(** One round of the loop, entered with the code of the [j]-th call. *)
Lemma createRoom_loop_round (random : nat → Q) (fuel j : nat) :
  RoomManager.createRoom_loop fuel (λ i, random (6 * S j + i)%nat) rooms0
    (nth_code random j)
  = match rooms0 !! nth_code random j with
    | None => Some (nth_code random j)
    | Some _ =>
        match fuel with
        | O => None
        | S fuel' =>
            RoomManager.createRoom_loop fuel'
              (λ i, random (6 * S (S j) + i)%nat) rooms0 (nth_code random (S j))
        end
    end.
Proof.
  destruct fuel as [|fuel]; simpl RoomManager.createRoom_loop;
    destruct (rooms0 !! nth_code random j); try reflexivity.
  apply createRoom_loop_ext. intros k. f_equal. lia.
Qed.

(** The loop returns a code within [fuel] rounds exactly when one of the
    calls up to then yields a free code, and it returns the first such. *)
Lemma createRoom_loop_iff (random : nat → Q) (fuel j : nat) (code : string) :
  RoomManager.createRoom_loop fuel (λ i, random (6 * S j + i)%nat) rooms0
    (nth_code random j) = Some code
  ↔ ∃ d : nat,
      (d ≤ fuel)%nat ∧ code = nth_code random (j + d) ∧
      rooms0 !! code = None ∧
      ∀ i : nat, (i < d)%nat → is_Some (rooms0 !! nth_code random (j + i)).
Proof.
  revert j. induction fuel as [|fuel IH]; intros j;
    rewrite createRoom_loop_round;
    destruct (rooms0 !! nth_code random j) as [r|] eqn:E.
  - split; [discriminate|]. intros (d & Hd & -> & Hfree & _).
    assert (d = 0)%nat as -> by lia. rewrite Nat.add_0_r in Hfree. congruence.
  - split.
    + intros [= <-]. exists 0%nat. rewrite Nat.add_0_r.
      split; [lia|]. split; [done|]. split; [done|]. intros i Hi. lia.
    + intros (d & _ & -> & Hfree & Hbusy). destruct d as [|d].
      * by rewrite Nat.add_0_r.
      * destruct (Hbusy 0%nat) as [x Hx]; [lia|].
        rewrite Nat.add_0_r in Hx. congruence.
  - rewrite IH. split.
    + intros (d & Hd & -> & Hfree & Hbusy). exists (S d).
      replace (j + S d)%nat with (S j + d)%nat by lia.
      split; [lia|]. split; [done|]. split; [done|].
      intros i Hi. destruct i as [|i].
      * rewrite Nat.add_0_r. by exists r.
      * replace (j + S i)%nat with (S j + i)%nat by lia. apply Hbusy. lia.
    + intros (d & Hd & -> & Hfree & Hbusy). destruct d as [|d].
      * rewrite Nat.add_0_r in Hfree. congruence.
      * exists d. replace (S j + d)%nat with (j + S d)%nat by lia.
        split; [lia|]. split; [done|]. split; [done|].
        intros i Hi. replace (S j + i)%nat with (j + S i)%nat by lia.
        apply Hbusy. lia.
  - split.
    + intros [= <-]. exists 0%nat. rewrite Nat.add_0_r.
      split; [lia|]. split; [done|]. split; [done|]. intros i Hi. lia.
    + intros (d & _ & -> & Hfree & Hbusy). destruct d as [|d].
      * by rewrite Nat.add_0_r.
      * destruct (Hbusy 0%nat) as [x Hx]; [lia|].
        rewrite Nat.add_0_r in Hx. congruence.
Qed.

(** Among the first [k] calls either every code is taken or there is a
    first free one. *)
Lemma first_free (random : nat → Q) (k : nat) :
  (∀ j : nat, (j < k)%nat → is_Some (rooms0 !! nth_code random j)) ∨
  (∃ j : nat, (j < k)%nat ∧ rooms0 !! nth_code random j = None ∧
     ∀ i : nat, (i < j)%nat → is_Some (rooms0 !! nth_code random i)).
Proof.
  induction k as [|k [IH|(j & Hj & Hfree & Hbusy)]].
  - left. intros j Hj. lia.
  - destruct (rooms0 !! nth_code random k) as [r|] eqn:E.
    + left. intros j Hj. destruct (decide (j = k)) as [->|Hne].
      * by exists r.
      * apply IH. lia.
    + right. exists k. split; [lia|]. split; [done|exact IH].
  - right. exists j. split; [lia|done].
Qed.

(** [createRoom] is the loop entered with the code of call 0. *)
Lemma createRoom_unfold (fuel : nat) (random : nat → Q) (hostId hostName : string) :
  RoomManager.createRoom fuel random hostId hostName rooms0
  = match RoomManager.createRoom_loop fuel (λ i, random (6 * 1 + i)%nat) rooms0
            (nth_code random 0) with
    | None => None
    | Some roomId =>
        Some (roomId, <[roomId := GameRoom.new roomId hostId hostName]> rooms0)
    end.
Proof. reflexivity. Qed.

(** Whatever [createRoom] returns is a code that was free, with the fresh
    room stored under it. *)
Lemma createRoom_inv (fuel : nat) (random : nat → Q) (hostId hostName : string)
    (code : string) (rooms' : gmap string GameRoom.t) :
  RoomManager.createRoom fuel random hostId hostName rooms0 = Some (code, rooms') →
  rooms0 !! code = None ∧
  rooms' = <[code := GameRoom.new code hostId hostName]> rooms0.
Proof.
  rewrite createRoom_unfold.
  destruct (RoomManager.createRoom_loop fuel _ rooms0 (nth_code random 0))
    as [c|] eqn:E; [|discriminate].
  intros [= <- <-]. split; [|reflexivity].
  apply createRoom_loop_iff in E. by destruct E as (d & _ & _ & Hfree & _).
Qed.

End CreateRoomLoop.

(** C8 (as amended): [createRoom] has no bound on its retries.  It returns
    within [fuel] rounds of its loop exactly when one of the calls of the
    generator up to then (call 0 before the loop, one call per round) yields
    a code absent from the directory; the code returned is the first such, it
    is absent from the directory, and the fresh room is stored under it.  As
    long as the generator yields only codes of live rooms the loop goes on. *)
Theorem createRoom_returns_iff (fuel : nat) (random : nat → Q)
    (hostId hostName : string) (rooms0 : gmap string GameRoom.t)
    (code : string) (rooms' : gmap string GameRoom.t) :
  RoomManager.createRoom fuel random hostId hostName rooms0 = Some (code, rooms')
  ↔ ∃ k : nat,
      (k ≤ fuel)%nat ∧ code = nth_code random k ∧
      rooms0 !! code = None ∧
      (∀ j : nat, (j < k)%nat → is_Some (rooms0 !! nth_code random j)) ∧
      rooms' = <[code := GameRoom.new code hostId hostName]> rooms0.
Proof.
  rewrite createRoom_unfold.
  pose proof (createRoom_loop_iff rooms0 random fuel 0) as L.
  destruct (RoomManager.createRoom_loop fuel _ rooms0 (nth_code random 0))
    as [c|] eqn:E.
  - split.
    + intros [= <- <-]. destruct (proj1 (L c) eq_refl) as (d & ? & ? & ? & ?).
      exists d. by repeat split.
    + intros (k & Hk & Hc & Hfree & Hbusy & ->).
      assert (Some c = Some code) as [= ->]; [|done].
      apply L. exists k. by repeat split.
  - split; [discriminate|].
    intros (k & Hk & Hc & Hfree & Hbusy & _).
    assert (None = Some code) as [=].
    apply L. exists k. by repeat split.
Qed.

Lemma createRoom_returns_iff_witness :
  RoomManager.createRoom 0 zeros "h" "Alice" ∅
  = Some ("AAAAAA", <["AAAAAA" := room0]> ∅).
Proof.
  apply (createRoom_returns_iff 0 zeros "h" "Alice" ∅ "AAAAAA").
  exists 0%nat. split; [lia|]. split; [vm_compute; reflexivity|].
  split; [apply lookup_empty|]. split; [intros j Hj; lia|reflexivity].
Defined.

Lemma nth_code_zeros (k : nat) : nth_code zeros k = "AAAAAA".
Proof.
  unfold nth_code. rewrite (generateRoomId_ext _ zeros); [|done].
  vm_compute. reflexivity.
Qed.

(** C8 (as stated) fails: with the room "AAAAAA" live and a generator that
    keeps returning "AAAAAA", [createRoom] has not returned after any number
    of rounds, and nothing makes it give up. *)
Lemma createRoom_loops_forever :
  ¬ ∃ fuel : nat,
      is_Some (RoomManager.createRoom fuel zeros "g" "Gil" (rooms s_created)).
Proof.
  intros (fuel & [code rooms'] & E).
  rewrite createRoom_unfold in E.
  destruct (RoomManager.createRoom_loop fuel _ (rooms s_created) (nth_code zeros 0))
    as [c|] eqn:L; [|discriminate].
  apply createRoom_loop_iff in L. destruct L as (d & _ & -> & Hfree & _).
  rewrite nth_code_zeros in Hfree. vm_compute in Hfree. discriminate.
Qed.

(** ** Reclaiming a room *)



(** ** Every handled event is one of the five changes *)

Lemma handlePlayerDisconnect_change (socket : string) (e : ClientEvent) (s : Server) :
  departs e = true → change socket s e (handlePlayerDisconnect socket s).1.
Proof.
  intros He.
  destruct (handlePlayerDisconnect_cases s socket)
    as [->|(playerId & roomId & room & Hb & Hp & Hr)]; [constructor|].
  rewrite (handlePlayerDisconnect_bound _ _ _ _ _ Hb Hp Hr).
  cbv zeta. cbn [fst].
  unfold RoomManager.removeRoom, RoomManager.putRoom. cbn [snd].
  rewrite delete_insert_eq.
  by apply change_depart.
Qed.

Lemma handle_change (fuel : nat) (socket : string) (e : ClientEvent)
    (s s' : Server) (out : list Effect) :
  handle fuel socket e s = Some (s', out) → change socket s e s'.
Proof.
  destruct e as [random username|roomId username|state|v t|p d|g| |];
    cbn [handle]; intros H.
  - unfold on_createRoom in H.
    destruct (RoomManager.createRoom fuel random socket username (rooms s))
      as [[code rooms']|] eqn:E; [|discriminate].
    injection H as <- <-.
    apply createRoom_inv in E. destruct E as [Hfree ->].
    by apply change_create.
  - injection H as H. unfold on_joinRoom, RoomManager.getRoom in H.
    destruct (rooms s !! roomId) as [room|] eqn:E.
    + cbv beta iota zeta in H. injection H as <- <-.
      by apply change_join.
    + injection H as <- <-. constructor.
  - injection H as H.
    destruct (on_updateGameState_cases s socket state)
      as [E|(playerId & roomId & room & Hb & Hp & Hr & Hhost)].
    + rewrite E in H. injection H as <- <-. constructor.
    + rewrite (on_updateGameState_bound _ _ _ _ _ _ Hb Hp Hr) in H.
      assert (E : String.eqb (GameRoom.getHostId room) playerId = true)
        by (by apply String.eqb_eq).
      rewrite E in H. cbn [negb] in H. injection H as <- <-.
      by eapply change_publish.
  - injection H as H. apply (f_equal fst) in H. cbn [fst] in H.
    unfold on_submitVote in H. rewrite forward_to_host_state in H.
    subst s'. constructor.
  - injection H as H. apply (f_equal fst) in H. cbn [fst] in H.
    unfold on_submitDescription in H. rewrite forward_to_host_state in H.
    subst s'. constructor.
  - injection H as H. apply (f_equal fst) in H. cbn [fst] in H.
    unfold on_submitMrWhiteGuess in H. rewrite forward_to_host_state in H.
    subst s'. constructor.
  - injection H as H. apply (f_equal fst) in H. cbn [fst] in H.
    subst s'. by apply handlePlayerDisconnect_change.
  - injection H as H. apply (f_equal fst) in H. cbn [fst] in H.
    subst s'. by apply handlePlayerDisconnect_change.
Qed.

(** Every handler but [createRoom] returns, whatever the fuel; [createRoom]
    returns when the generator yields a free code within the rounds given. *)
Lemma handle_returns (fuel : nat) (socket : string) (e : ClientEvent) (s : Server) :
  match e with
  | createRoom random _ =>
      (∃ k, (k ≤ fuel)%nat ∧ rooms s !! nth_code random k = None) →
      is_Some (handle fuel socket e s)
  | _ => is_Some (handle fuel socket e s)
  end.
Proof.
  destruct e as [random username| | | | | | |]; cbn [handle]; try by eexists.
  intros (k & Hk & Hfree). unfold on_createRoom.
  rewrite createRoom_unfold.
  destruct (first_free (rooms s) random (S k))
    as [Hbusy|(j & Hj & Hjfree & Hbusy)].
  - destruct (Hbusy k) as [r Hr]; [lia|congruence].
  - assert (L : RoomManager.createRoom_loop fuel (λ i, random (6 * 1 + i)%nat)
                  (rooms s) (nth_code random 0) = Some (nth_code random j)).
    { apply createRoom_loop_iff. exists j.
      split; [lia|]. split; [done|]. split; [done|exact Hbusy]. }
    rewrite L. by eexists.
Qed.

(** ** What touches the stored state *)

Lemma same_but_players_refl (g : GameState.t) : same_but_players g g.
Proof. by repeat split. Qed.

Lemma same_but_players_set (ps : list Player.t) (g : GameState.t) :
  same_but_players g (GameState.set_players ps g).
Proof. by repeat split. Qed.

(** C5 (as stated) fails: [addPlayer] and [removePlayer] both change the
    stored state of the room, in its [players] list. *)
Lemma addPlayer_removePlayer_change_gameState :
  GameRoom.gameState (GameRoom.addPlayer "f" "Bob" room0).2
    ≠ GameRoom.gameState room0 ∧
  GameRoom.gameState (GameRoom.removePlayer "h" room0)
    ≠ GameRoom.gameState room0.
Proof.
  split; intros H; apply (f_equal GameState.players) in H;
    vm_compute in H; discriminate.
Qed.

(** C5 (as amended): apart from a publish, the stored state of a room
    changes in its [players] list only.  [addPlayer] appends the record of the
    new player to that list, [removePlayer] drops the records with the given
    id from it, and both keep every other field; across any handled event
    other than [updateGameState], a room that is live before and after has
    its stored state changed in one of these two ways or not at all. *)
Theorem gameState_changes_players_only :
  (∀ (id name : string) (r : GameRoom.t),
     let g' := GameRoom.gameState (GameRoom.addPlayer id name r).2 in
     same_but_players (GameRoom.gameState r) g' ∧
     GameState.players g'
     = (GameState.players (GameRoom.gameState r) ++ [Player.literal id name])%list) ∧
  (∀ (id : string) (r : GameRoom.t),
     let g' := GameRoom.gameState (GameRoom.removePlayer id r) in
     same_but_players (GameRoom.gameState r) g' ∧
     GameState.players g'
     = filter (λ p, Player.id p ≠ id) (GameState.players (GameRoom.gameState r))) ∧
  (∀ (fuel : nat) (socket : string) (e : ClientEvent) (s s' : Server)
     (out : list Effect) (c : string) (r r' : GameRoom.t),
     handle fuel socket e s = Some (s', out) → is_publish e = false →
     rooms s !! c = Some r → rooms s' !! c = Some r' →
     same_but_players (GameRoom.gameState r) (GameRoom.gameState r') ∧
     players_step (GameState.players (GameRoom.gameState r))
                  (GameState.players (GameRoom.gameState r'))).
Proof.
  split; [|split].
  - intros id name r g'. subst g'. split; [apply same_but_players_set|reflexivity].
  - intros id r g'. subst g'. split; [apply same_but_players_set|reflexivity].
  - intros fuel socket e s s' out c r r' H Hpub Hc Hc'.
    apply handle_change in H.
    destruct H as [e|random username code Hfree|roomId username room Hroom
                  |state playerId roomId room Hb Hhost
                  |e playerId roomId room He (Hs & Hp & Hroom)];
      cbn [rooms] in Hc'.
    + assert (r' = r) as -> by congruence.
      split; [apply same_but_players_refl|constructor].
    + assert (c ≠ code) by congruence.
      rewrite lookup_insert_ne in Hc' by done.
      assert (r' = r) as -> by congruence.
      split; [apply same_but_players_refl|constructor].
    + destruct (decide (c = roomId)) as [->|Hne].
      * rewrite lookup_insert_eq in Hc'. injection Hc' as <-.
        assert (room = r) as -> by congruence.
        split; [apply same_but_players_set|]. room_simpl. constructor.
      * rewrite lookup_insert_ne in Hc' by done.
        assert (r' = r) as -> by congruence.
        split; [apply same_but_players_refl|constructor].
    + discriminate.
    + destruct (decide (c = roomId)) as [->|Hne].
      * destruct (GameRoom.isEmpty (GameRoom.removePlayer playerId room)).
        { rewrite lookup_delete_eq in Hc'. discriminate. }
        rewrite lookup_insert_eq in Hc'. injection Hc' as <-.
        assert (room = r) as -> by congruence.
        split; [apply same_but_players_set|]. room_simpl. constructor.
      * assert (rooms s !! c = Some r') as Hc''.
        { destruct (GameRoom.isEmpty (GameRoom.removePlayer playerId room)).
          - by rewrite lookup_delete_ne in Hc'.
          - by rewrite lookup_insert_ne in Hc'. }
        assert (r' = r) as -> by congruence.
        split; [apply same_but_players_refl|constructor].
Qed.

(** ** Binding table and membership *)

Section Consistency.
Implicit Types (s : Server) (m : gmap string GameRoom.t).

(** The directory after a departure, key by key. *)
Lemma lookup_after_depart m (roomId c : string) (room' : GameRoom.t) :
  (if GameRoom.isEmpty room' then delete roomId m else <[roomId := room']> m) !! c
  = if decide (c = roomId)
    then (if GameRoom.isEmpty room' then None else Some room')
    else m !! c.
Proof.
  destruct (decide (c = roomId)) as [->|Hne];
    destruct (GameRoom.isEmpty room').
  - apply lookup_delete_eq.
  - apply lookup_insert_eq.
  - by apply lookup_delete_ne.
  - by apply lookup_insert_ne.
Qed.

Lemma consistent_initial : consistent initial.
Proof.
  intros p c. unfold initial. cbn [playerToRoom rooms]. unfold RoomManager.empty.
  rewrite lookup_empty. split; [discriminate|].
  intros (r & Hr & _). rewrite lookup_empty in Hr. discriminate.
Qed.

Lemma consistent_create s (socket username code : string) :
  consistent s → rooms s !! code = None → playerToRoom s !! socket = None →
  consistent
    {| rooms := <[code := GameRoom.new code socket username]> (rooms s);
       socketToPlayer := <[socket := socket]> (socketToPlayer s);
       playerToRoom := <[socket := code]> (playerToRoom s) |}.
Proof.
  intros Hc Hfree Hunbound p c. cbn [rooms playerToRoom].
  destruct (decide (p = socket)) as [->|Hp].
  - rewrite lookup_insert_eq. split.
    + intros [= <-]. exists (GameRoom.new code socket username).
      rewrite lookup_insert_eq, members_new. split; [done|set_solver].
    + intros (r & Hr & Hin). destruct (decide (c = code)) as [->|Hne]; [done|].
      rewrite lookup_insert_ne in Hr by done.
      assert (playerToRoom s !! socket = Some c) by (apply Hc; eauto).
      congruence.
  - rewrite lookup_insert_ne by done. rewrite (Hc p c). split.
    + intros (r & Hr & Hin). exists r. split; [|done].
      rewrite lookup_insert_ne; [done|congruence].
    + intros (r & Hr & Hin). destruct (decide (c = code)) as [->|Hne].
      * rewrite lookup_insert_eq in Hr.
        assert (r = GameRoom.new code socket username) as -> by congruence.
        rewrite members_new in Hin. set_solver.
      * rewrite lookup_insert_ne in Hr by done. eauto.
Qed.

Lemma consistent_join s (socket roomId username : string) (room : GameRoom.t) :
  consistent s → rooms s !! roomId = Some room →
  playerToRoom s !! socket = None →
  consistent
    {| rooms := <[roomId := (GameRoom.addPlayer socket username room).2]> (rooms s);
       socketToPlayer := <[socket := socket]> (socketToPlayer s);
       playerToRoom := <[socket := roomId]> (playerToRoom s) |}.
Proof.
  intros Hc Hroom Hunbound p c. cbn [rooms playerToRoom].
  destruct (decide (p = socket)) as [->|Hp].
  - rewrite lookup_insert_eq. split.
    + intros [= <-]. eexists. rewrite lookup_insert_eq. split; [done|].
      rewrite members_addPlayer. set_solver.
    + intros (r & Hr & Hin). destruct (decide (c = roomId)) as [->|Hne]; [done|].
      rewrite lookup_insert_ne in Hr by done.
      assert (playerToRoom s !! socket = Some c) by (apply Hc; eauto).
      congruence.
  - rewrite lookup_insert_ne by done. rewrite (Hc p c).
    destruct (decide (c = roomId)) as [->|Hne].
    + rewrite lookup_insert_eq. split.
      * intros (r & Hr & Hin). assert (r = room) as -> by congruence.
        eexists. split; [done|]. rewrite members_addPlayer. set_solver.
      * intros (r & Hr & Hin). exists room. split; [done|].
        assert (r = (GameRoom.addPlayer socket username room).2) as ->
          by congruence.
        rewrite members_addPlayer in Hin. set_solver.
    + by rewrite lookup_insert_ne.
Qed.

Lemma consistent_depart s (socket playerId roomId : string) (room : GameRoom.t) :
  consistent s → bound_to s socket playerId roomId room →
  consistent
    {| rooms :=
         if GameRoom.isEmpty (GameRoom.removePlayer playerId room)
         then delete roomId (rooms s)
         else <[roomId := GameRoom.removePlayer playerId room]> (rooms s);
       socketToPlayer := delete socket (socketToPlayer s);
       playerToRoom := delete playerId (playerToRoom s) |}.
Proof.
  intros Hc (Hs & Hp & Hroom) p c. cbn [rooms playerToRoom].
  rewrite lookup_after_depart.
  destruct (decide (p = playerId)) as [->|Hne].
  - rewrite lookup_delete_eq. split; [discriminate|].
    intros (r & Hr & Hin). exfalso.
    destruct (decide (c = roomId)) as [->|Hcne].
    + destruct (GameRoom.isEmpty _); [discriminate|].
      assert (r = GameRoom.removePlayer playerId room) as -> by congruence.
      rewrite members_removePlayer in Hin. set_solver.
    + assert (playerToRoom s !! playerId = Some c) by (apply Hc; eauto).
      congruence.
  - rewrite lookup_delete_ne by done. rewrite (Hc p c).
    destruct (decide (c = roomId)) as [->|Hcne]; [|done].
    split.
    + intros (r & Hr & Hin). assert (r = room) as -> by congruence.
      assert (Hin' : p ∈ members (GameRoom.removePlayer playerId room)).
      { rewrite members_removePlayer. set_solver. }
      rewrite (isEmpty_false_members _ _ Hin'). eauto.
    + intros (r & Hr & Hin).
      destruct (GameRoom.isEmpty _); [discriminate|].
      assert (r = GameRoom.removePlayer playerId room) as -> by congruence.
      exists room. split; [done|].
      rewrite members_removePlayer in Hin. set_solver.
Qed.

(** Who is bound to a code is a member of the room under it: this half is
    kept by each of the five changes, with no condition on the sender. *)
Lemma bound_is_member_change s s' (socket : string) (e : ClientEvent) :
  change socket s e s' → bound_is_member s → bound_is_member s'.
Proof.
  intros H Hb.
  destruct H as [e|random username code Hfree|roomId username room Hroom
                |state playerId roomId room (Hs & Hp & Hroom) Hhost
                |e playerId roomId room He (Hs & Hp & Hroom)];
    [exact Hb| | | |]; intros p c; cbn [rooms playerToRoom].
  - destruct (decide (p = socket)) as [->|Hne].
    + rewrite lookup_insert_eq. intros [= <-]. eexists.
      rewrite lookup_insert_eq, members_new. split; [done|set_solver].
    + rewrite lookup_insert_ne by done. intros Hpc.
      destruct (Hb p c Hpc) as (r & Hr & Hin). exists r. split; [|done].
      rewrite lookup_insert_ne; [done|congruence].
  - destruct (decide (p = socket)) as [->|Hne].
    + rewrite lookup_insert_eq. intros [= <-]. eexists.
      rewrite lookup_insert_eq. split; [done|].
      rewrite members_addPlayer. set_solver.
    + rewrite lookup_insert_ne by done. intros Hpc.
      destruct (Hb p c Hpc) as (r & Hr & Hin).
      destruct (decide (c = roomId)) as [->|Hcne].
      * assert (r = room) as -> by congruence. eexists.
        rewrite lookup_insert_eq. split; [done|].
        rewrite members_addPlayer. set_solver.
      * exists r. by rewrite lookup_insert_ne.
  - intros Hpc. destruct (Hb p c Hpc) as (r & Hr & Hin).
    destruct (decide (c = roomId)) as [->|Hcne].
    + assert (r = room) as -> by congruence. eexists.
      rewrite lookup_insert_eq. split; [done|].
      rewrite members_updateGameState. set_solver.
    + exists r. by rewrite lookup_insert_ne.
  - rewrite lookup_after_depart.
    destruct (decide (p = playerId)) as [->|Hne].
    + rewrite lookup_delete_eq. discriminate.
    + rewrite lookup_delete_ne by done. intros Hpc.
      destruct (Hb p c Hpc) as (r & Hr & Hin).
      destruct (decide (c = roomId)) as [->|Hcne]; [|eauto].
      assert (r = room) as -> by congruence.
      assert (Hin' : p ∈ members (GameRoom.removePlayer playerId room)).
      { rewrite members_removePlayer. set_solver. }
      rewrite (isEmpty_false_members _ _ Hin'). eauto.
Qed.

End Consistency.

(** C2 (as amended): starting from a state in which binding table and room
    membership agree in both directions, they still agree after a create-room,
    a join-room or a leave/disconnect, provided that the connection issuing a
    create or a join is not bound to a room at that moment.  Without that
    proviso one direction is kept by every handled event: an identity that
    the binding table maps to a code is a member of the room under that
    code.  (For a connection that is bound already the handlers overwrite its
    binding and leave it a member of the room it was bound to.) *)
Theorem consistent_preserved (fuel : nat) (socket : string) (e : ClientEvent)
    (s s' : Server) (out : list Effect) :
  handle fuel socket e s = Some (s', out) →
  (bound_is_member s → bound_is_member s') ∧
  (consistent s →
   is_publish e = false →
   (binds e = true → playerToRoom s !! socket = None) →
   consistent s').
Proof.
  intros H. apply handle_change in H.
  split; [by apply bound_is_member_change with socket e|].
  intros Hc Hpub Hfresh.
  destruct H as [e|random username code Hfree|roomId username room Hroom
                |state playerId roomId room Hb Hhost
                |e playerId roomId room He Hb].
  - exact Hc.
  - apply consistent_create; auto.
  - apply consistent_join; auto.
  - discriminate.
  - by apply consistent_depart.
Qed.

Lemma consistent_preserved_witness :
  consistent initial ∧ consistent s_created.
Proof.
  split; [exact consistent_initial|].
  apply (consistent_preserved 0 "h" (createRoom zeros "Alice") initial s_created
           [socket_join "h" "AAAAAA"; callback_createRoom "AAAAAA"]).
  - vm_compute. reflexivity.
  - exact consistent_initial.
  - reflexivity.
  - intros _. apply lookup_empty.
Defined.

(** C2 (as stated) fails: "h" is bound to room "AAAAAA" and joins room
    "SSSSSS".  Afterwards "h" is still a member of "AAAAAA", while the binding
    table maps "h" to "SSSSSS". *)
Lemma rejoin_breaks_consistency : ¬ consistent s_rejoined.
Proof.
  intros Hc.
  assert (H : playerToRoom s_rejoined !! "h" = Some "AAAAAA").
  { apply Hc. exists room0. split; [vm_compute; reflexivity|].
    unfold room0. rewrite members_new. set_solver. }
  vm_compute in H. discriminate.
Qed.

(** ** The host of a room *)

(** C4 (as stated) fails: "h" creates room "AAAAAA", "f" joins, "h"
    disconnects.  The room is still live, its host id is still "h", and "h"
    is not among its members. *)
Lemma host_gone_room_live :
  ∃ r, rooms s_headless !! "AAAAAA" = Some r ∧
       GameRoom.hostId r = "h" ∧ members r = {["f"]} ∧
       ¬ host_is_member s_headless.
Proof.
  exists (GameRoom.removePlayer "h" room_joined).
  assert (Hr : rooms s_headless !! "AAAAAA"
               = Some (GameRoom.removePlayer "h" room_joined))
    by (vm_compute; reflexivity).
  assert (Hm : members (GameRoom.removePlayer "h" room_joined) = {["f"]}).
  { rewrite members_removePlayer. unfold room_joined, room0.
    rewrite members_addPlayer, members_new. set_solver. }
  split; [exact Hr|]. split; [reflexivity|]. split; [exact Hm|].
  intros Hhost. specialize (Hhost _ _ Hr). rewrite Hm in Hhost.
  change (GameRoom.hostId (GameRoom.removePlayer "h" room_joined)) with "h" in Hhost.
  set_solver.
Qed.

(** C4 (as amended): a room has one host id, set when the room is created
    and the same for as long as the room is live, and the host is the only
    member of the room it creates.  Room by room: across any handled event
    other than a leave or disconnect of the host of that very room, a room
    whose host is a member before has its host as a member after. *)
Theorem host_kept_until_it_departs (fuel : nat) (socket : string)
    (e : ClientEvent) (s s' : Server) (out : list Effect) :
  handle fuel socket e s = Some (s', out) →
  (∀ c r r', rooms s !! c = Some r → rooms s' !! c = Some r' →
             GameRoom.hostId r' = GameRoom.hostId r ∧
             (GameRoom.hostId r ∈ members r → ¬ host_departs s socket e c →
              GameRoom.hostId r' ∈ members r')) ∧
  (∀ c r', rooms s !! c = None → rooms s' !! c = Some r' →
           GameRoom.hostId r' = socket ∧ members r' = {[socket]}).
Proof.
  intros H. apply handle_change in H.
  destruct H as [e|random username code Hfree|roomId username room Hroom
                |state playerId roomId room Hb Hhost
                |e playerId roomId room He Hb]; cbn [rooms].
  - split; [|intros; congruence].
    intros c r r' Hc Hc'. assert (r' = r) as -> by congruence. by split.
  - split.
    + intros c r r' Hc Hc'. assert (c ≠ code) by congruence.
      rewrite lookup_insert_ne in Hc' by done.
      assert (r' = r) as -> by congruence. by split.
    + intros c r' Hc Hc'. destruct (decide (c = code)) as [->|Hne].
      * rewrite lookup_insert_eq in Hc'.
        assert (r' = GameRoom.new code socket username) as -> by congruence.
        split; [reflexivity|apply members_new].
      * rewrite lookup_insert_ne in Hc' by done. congruence.
  - split.
    + intros c r r' Hc Hc'. destruct (decide (c = roomId)) as [->|Hne].
      * rewrite lookup_insert_eq in Hc'.
        assert (r' = (GameRoom.addPlayer socket username room).2) as ->
          by congruence.
        assert (r = room) as -> by congruence.
        split; [reflexivity|]. intros Hin _.
        rewrite members_addPlayer.
        change (GameRoom.hostId (GameRoom.addPlayer socket username room).2)
          with (GameRoom.hostId room).
        set_solver.
      * rewrite lookup_insert_ne in Hc' by done.
        assert (r' = r) as -> by congruence. by split.
    + intros c r' Hc Hc'. assert (c ≠ roomId) by congruence.
      rewrite lookup_insert_ne in Hc' by done. congruence.
  - destruct Hb as (Hs & Hp & Hroom). split.
    + intros c r r' Hc Hc'. destruct (decide (c = roomId)) as [->|Hne].
      * rewrite lookup_insert_eq in Hc'.
        assert (r' = GameRoom.updateGameState state room) as -> by congruence.
        assert (r = room) as -> by congruence.
        split; [reflexivity|]. intros Hin _.
        rewrite members_updateGameState.
        change (GameRoom.hostId (GameRoom.updateGameState state room))
          with (GameRoom.hostId room).
        set_solver.
      * rewrite lookup_insert_ne in Hc' by done.
        assert (r' = r) as -> by congruence. by split.
    + intros c r' Hc Hc'. assert (c ≠ roomId) by congruence.
      rewrite lookup_insert_ne in Hc' by done. congruence.
  - pose proof Hb as (Hs & Hp & Hroom). split.
    + intros c r r' Hc Hc'. rewrite lookup_after_depart in Hc'.
      destruct (decide (c = roomId)) as [->|Hne].
      * destruct (GameRoom.isEmpty _); [discriminate|].
        assert (r' = GameRoom.removePlayer playerId room) as -> by congruence.
        assert (r = room) as -> by congruence.
        split; [reflexivity|]. intros Hin Hstay.
        rewrite members_removePlayer.
        change (GameRoom.hostId (GameRoom.removePlayer playerId room))
          with (GameRoom.hostId room).
        assert (GameRoom.hostId room ≠ playerId).
        { intros Heq. apply Hstay. split; [done|]. exists room. by rewrite Heq. }
        set_solver.
      * assert (r' = r) as -> by congruence. by split.
    + intros c r' Hc Hc'. rewrite lookup_after_depart in Hc'.
      destruct (decide (c = roomId)) as [->|Hne]; congruence.
Qed.

Lemma host_kept_until_it_departs_witness :
  "h" ∈ members (GameRoom.removePlayer "f" room_joined).
Proof.
  apply (proj1 (host_kept_until_it_departs 0 "f" disconnect s_joined
                  (handlePlayerDisconnect "f" s_joined).1
                  (handlePlayerDisconnect "f" s_joined).2
                  ltac:(vm_compute; reflexivity))
               "AAAAAA" room_joined (GameRoom.removePlayer "f" room_joined)).
  - vm_compute. reflexivity.
  - vm_compute. reflexivity.
  - unfold room_joined, room0. rewrite members_addPlayer, members_new.
    change (GameRoom.hostId _) with "h". set_solver.
  - intros [_ (room & Hsock & _ & Hroom)].
    assert (room = room_joined) as ->.
    { destruct s_joined_bound_f as (_ & _ & Hr). congruence. }
    vm_compute in Hsock. discriminate.
Defined.

(** * Further properties of the server code *)

(** ** [GameRoom]: the member map and the players list of the stored state *)

Section RoomSync.
Implicit Types (r : GameRoom.t) (l : list Player.t).

Lemma filter_keeps_all l (id : string) :
  (∀ p, p ∈ l → Player.id p ≠ id) → filter (λ p, Player.id p ≠ id) l = l.
Proof.
  induction l as [|p l IH]; intros H; [reflexivity|].
  rewrite filter_cons_True by (apply H; apply list_elem_of_here).
  rewrite IH; [reflexivity|]. intros q Hq. apply H. by apply list_elem_of_further.
Qed.

Lemma ids_filter l (id : string) :
  (list_to_set (Player.id <$> filter (λ p, Player.id p ≠ id) l) : gset string)
  = list_to_set (Player.id <$> l) ∖ {[id]}.
Proof.
  apply set_eq. intros x.
  rewrite elem_of_difference, !elem_of_list_to_set, !list_elem_of_fmap,
    not_elem_of_singleton.
  split.
  - intros (p & -> & Hp). apply list_elem_of_filter in Hp as [Hne Hin].
    split; [by exists p|done].
  - intros [(p & -> & Hp) Hne]. exists p. split; [done|].
    by apply list_elem_of_filter.
Qed.

Lemma listed_new (roomId hostId hostName : string) :
  listed (GameRoom.gameState (GameRoom.new roomId hostId hostName)) = {[hostId]}.
Proof. room_simpl. cbn [fmap list_fmap list_to_set foldr Player.literal Player.id]. set_solver. Qed.

Lemma listed_addPlayer (id name : string) r :
  listed (GameRoom.gameState (GameRoom.addPlayer id name r).2)
  = listed (GameRoom.gameState r) ∪ {[id]}.
Proof.
  room_simpl. rewrite fmap_app, list_to_set_app_L.
  cbn [fmap list_fmap list_to_set foldr Player.literal Player.id]. set_solver.
Qed.

Lemma listed_removePlayer (id : string) r :
  listed (GameRoom.gameState (GameRoom.removePlayer id r))
  = listed (GameRoom.gameState r) ∖ {[id]}.
Proof. room_simpl. apply ids_filter. Qed.

Lemma not_listed_no_record (id : string) (g : GameState.t) :
  id ∉ listed g → ∀ p, p ∈ GameState.players g → Player.id p ≠ id.
Proof.
  unfold listed. rewrite elem_of_list_to_set, list_elem_of_fmap.
  intros Hid p Hp Heq. apply Hid. by exists p.
Qed.

End RoomSync.

(** X1: a player who is neither a member nor listed in the stored state can
    be added and removed again without a trace: the room is what it was. *)
Theorem addPlayer_removePlayer (id name : string) (r : GameRoom.t) :
  id ∉ members r → id ∉ listed (GameRoom.gameState r) →
  GameRoom.removePlayer id (GameRoom.addPlayer id name r).2 = r.
Proof.
  intros Hm Hl. pose proof (not_listed_no_record _ _ Hl) as Hrec.
  destruct r as [rid hid ps g]. destruct g. room_simpl.
  unfold members in Hm. cbn [GameRoom.players] in Hm.
  apply not_elem_of_dom in Hm.
  rewrite (delete_insert_id _ _ _ Hm), filter_app.
  cbn [GameState.players] in Hrec. rewrite (filter_keeps_all _ _ Hrec).
  rewrite filter_cons_False by (cbn; intros H; by apply H).
  by rewrite filter_nil, app_nil_r.
Qed.

Lemma addPlayer_removePlayer_witness :
  GameRoom.removePlayer "f" (GameRoom.addPlayer "f" "Bob" room0).2 = room0.
Proof.
  apply addPlayer_removePlayer; unfold room0.
  - rewrite members_new. set_solver.
  - rewrite listed_new. set_solver.
Defined.

(** X2: [removePlayer] removes for good and only once: afterwards the
    identity is neither a member nor listed in the stored state, a second
    removal changes nothing, and no other member and no other listed player
    is lost. *)
Theorem removePlayer_complete (id : string) (r : GameRoom.t) :
  let r' := GameRoom.removePlayer id r in
  (id ∉ members r') ∧
  (id ∉ listed (GameRoom.gameState r')) ∧
  GameRoom.removePlayer id r' = r' ∧
  members r' = members r ∖ {[id]} ∧
  listed (GameRoom.gameState r') = listed (GameRoom.gameState r) ∖ {[id]}.
Proof.
  intros r'. subst r'.
  rewrite members_removePlayer, listed_removePlayer.
  split; [set_solver|]. split; [set_solver|]. split; [|done].
  destruct r as [rid hid ps g]. destruct g. room_simpl.
  rewrite delete_delete_eq. do 2 f_equal.
  apply filter_keeps_all. intros p Hp.
  by apply list_elem_of_filter in Hp as [? _].
Qed.

(** X3: the constructor leaves the stored state listing exactly the members,
    and [addPlayer] and [removePlayer] keep it so; [updateGameState] keeps
    only one half: whoever the new stored state lists is a member. *)
Theorem room_operations_sync :
  (∀ roomId hostId hostName, in_sync (GameRoom.new roomId hostId hostName)) ∧
  (∀ id name r, in_sync r → in_sync (GameRoom.addPlayer id name r).2) ∧
  (∀ id r, in_sync r → in_sync (GameRoom.removePlayer id r)) ∧
  (∀ state r,
     listed (GameRoom.gameState (GameRoom.updateGameState state r))
     ⊆ members (GameRoom.updateGameState state r)).
Proof.
  unfold in_sync. split; [|split; [|split]].
  - intros. by rewrite listed_new, members_new.
  - intros id name r H. rewrite listed_addPlayer, members_addPlayer, H. set_solver.
  - intros id r H. by rewrite listed_removePlayer, members_removePlayer, H.
  - intros state r. rewrite members_updateGameState.
    change (GameRoom.gameState (GameRoom.updateGameState state r)) with state.
    set_solver.
Qed.

(** ** [RoomManager]: creating, removing and sweeping rooms *)

Lemma createRoom_sample :
  RoomManager.createRoom 0 zeros "h" "Alice" (∅ : gmap string GameRoom.t)
  = Some ("AAAAAA", <["AAAAAA" := room0]> ∅).
Proof. vm_compute. reflexivity. Qed.

(** X4: [createRoom] never replaces or drops a room: the code it returns was
    free, every room of the directory is still stored under its code, the
    fresh room is found under the new code, and the room count has grown by
    one. *)
Theorem createRoom_keeps_rooms (fuel : nat) (random : nat → Q)
    (hostId hostName : string) (rooms0 rooms' : gmap string GameRoom.t)
    (code : string) :
  RoomManager.createRoom fuel random hostId hostName rooms0 = Some (code, rooms') →
  RoomManager.getRoom code rooms0 = None ∧
  (∀ c r, RoomManager.getRoom c rooms0 = Some r →
          RoomManager.getRoom c rooms' = Some r) ∧
  RoomManager.getRoom code rooms' = Some (GameRoom.new code hostId hostName) ∧
  RoomManager.getRoomCount rooms' = S (RoomManager.getRoomCount rooms0).
Proof.
  intros H. apply createRoom_inv in H. destruct H as [Hfree ->].
  unfold RoomManager.getRoom, RoomManager.getRoomCount.
  split; [done|]. split; [|split].
  - intros c r Hc. rewrite lookup_insert_ne; [done|congruence].
  - apply lookup_insert_eq.
  - by apply map_size_insert_None.
Qed.

Lemma createRoom_keeps_rooms_witness :
  RoomManager.getRoomCount (<["AAAAAA" := room0]> ∅) = 1%nat.
Proof.
  exact (proj2 (proj2 (proj2
    (createRoom_keeps_rooms 0 zeros "h" "Alice" ∅ (<["AAAAAA" := room0]> ∅)
       "AAAAAA" createRoom_sample)))).
Defined.

(** X5: removing the room that [createRoom] has just created gives back the
    directory as it was, and [removeRoom] reports that it removed a room. *)
Theorem createRoom_removeRoom (fuel : nat) (random : nat → Q)
    (hostId hostName : string) (rooms0 rooms' : gmap string GameRoom.t)
    (code : string) :
  RoomManager.createRoom fuel random hostId hostName rooms0 = Some (code, rooms') →
  RoomManager.removeRoom code rooms' = (true, rooms0).
Proof.
  intros H. apply createRoom_inv in H. destruct H as [Hfree ->].
  unfold RoomManager.removeRoom. f_equal.
  - apply bool_decide_eq_true. rewrite lookup_insert_eq. by eexists.
  - by apply delete_insert_id.
Qed.

Lemma createRoom_removeRoom_witness :
  RoomManager.removeRoom "AAAAAA" (<["AAAAAA" := room0]> ∅) = (true, ∅).
Proof.
  exact (createRoom_removeRoom 0 zeros "h" "Alice" ∅ (<["AAAAAA" := room0]> ∅)
           "AAAAAA" createRoom_sample).
Defined.

(** X6: [removeRoom] reports [true] exactly when a room was stored under the
    code.  Afterwards nothing is stored under it and every other code holds
    what it held; for a code that held nothing the directory is unchanged,
    otherwise the room count drops by one. *)
Theorem removeRoom_report (roomId : string) (rooms0 : gmap string GameRoom.t) :
  let '(removed, rooms') := RoomManager.removeRoom roomId rooms0 in
  (removed = true ↔ is_Some (RoomManager.getRoom roomId rooms0)) ∧
  RoomManager.getRoom roomId rooms' = None ∧
  (∀ c, c ≠ roomId → RoomManager.getRoom c rooms' = RoomManager.getRoom c rooms0) ∧
  (removed = false → rooms' = rooms0) ∧
  (removed = true →
   S (RoomManager.getRoomCount rooms') = RoomManager.getRoomCount rooms0).
Proof.
  unfold RoomManager.removeRoom, RoomManager.getRoom, RoomManager.getRoomCount.
  split; [apply bool_decide_eq_true|].
  split; [apply lookup_delete_eq|].
  split; [intros c Hc; by apply lookup_delete_ne|].
  split.
  - intros H. apply bool_decide_eq_false in H.
    apply delete_id. by apply eq_None_not_Some.
  - intros H. apply bool_decide_eq_true in H.
    rewrite (map_size_delete_Some _ _ H). destruct H as [r Hr].
    assert (size rooms0 ≠ 0)%nat; [|lia].
    intros Hz. apply map_size_empty_iff in Hz. subst. by rewrite lookup_empty in Hr.
Qed.

Section Sweep.
Implicit Types (m : gmap string GameRoom.t).

(** The sweep, key by key. *)
Lemma lookup_cleanupEmptyRooms m (c : string) :
  RoomManager.cleanupEmptyRooms m !! c
  = match m !! c with
    | Some room => if GameRoom.isEmpty room then None else Some room
    | None => None
    end.
Proof.
  unfold RoomManager.cleanupEmptyRooms.
  enough (H : ∀ acc : gmap string GameRoom.t,
    map_fold (λ (roomId : string) (room : GameRoom.t) (acc : gmap string GameRoom.t),
                if GameRoom.isEmpty room then delete roomId acc else acc) acc m !! c
    = match m !! c with
      | Some room => if GameRoom.isEmpty room then None else acc !! c
      | None => acc !! c
      end).
  { rewrite H. destruct (m !! c) as [room|]; [|done]. by destruct (GameRoom.isEmpty room). }
  intros acc.
  apply (map_fold_weak_ind (λ (res : gmap string GameRoom.t) m',
    res !! c = match m' !! c with
               | Some room => if GameRoom.isEmpty room then None else acc !! c
               | None => acc !! c
               end)).
  - by rewrite lookup_empty.
  - intros i x m' res Hi IH. destruct (decide (c = i)) as [->|Hne].
    + rewrite lookup_insert_eq. rewrite Hi in IH.
      destruct (GameRoom.isEmpty x); [apply lookup_delete_eq|exact IH].
    + rewrite lookup_insert_ne by done.
      destruct (GameRoom.isEmpty x); [|exact IH].
      by rewrite lookup_delete_ne.
Qed.

Lemma cleanupEmptyRooms_id m :
  (∀ c r, m !! c = Some r → GameRoom.isEmpty r = false) →
  RoomManager.cleanupEmptyRooms m = m.
Proof.
  intros H. apply map_eq. intros c. rewrite lookup_cleanupEmptyRooms.
  destruct (m !! c) as [room|] eqn:E; [|done]. by rewrite (H _ _ E).
Qed.

End Sweep.

(** X7: [cleanupEmptyRooms] removes the rooms without members and nothing
    else: a code holds a room afterwards exactly when it held that room
    before and the room has a member.  Sweeping twice is sweeping once. *)
Theorem cleanupEmptyRooms_spec (rooms0 : gmap string GameRoom.t) :
  (∀ c r,
     RoomManager.getRoom c (RoomManager.cleanupEmptyRooms rooms0) = Some r ↔
     RoomManager.getRoom c rooms0 = Some r ∧ GameRoom.isEmpty r = false) ∧
  RoomManager.cleanupEmptyRooms (RoomManager.cleanupEmptyRooms rooms0)
  = RoomManager.cleanupEmptyRooms rooms0.
Proof.
  assert (H : ∀ c r,
     RoomManager.cleanupEmptyRooms rooms0 !! c = Some r ↔
     rooms0 !! c = Some r ∧ GameRoom.isEmpty r = false).
  { intros c r. rewrite lookup_cleanupEmptyRooms.
    destruct (rooms0 !! c) as [room|]; [|by split; [|intros []]].
    destruct (GameRoom.isEmpty room) eqn:E.
    - split; [done|]. intros [[= ->] ?]. congruence.
    - split; [intros [= ->]; done|]. by intros [? _]. }
  split; [exact H|].
  apply cleanupEmptyRooms_id. intros c r Hc. by apply H in Hc as [_ ?].
Qed.

(** ** What holds in every reachable state *)

(** Names the room that a lookup equation in the goal gives. *)
Ltac room_is :=
  let H := fresh in
  intros H;
  match type of H with
  | Some ?x = Some ?r => assert (r = x) as -> by congruence; clear H
  end.

Section Reachable.
Implicit Types (s : Server).

(** Induction over the reachable states along the five changes. *)
Lemma reachable_change_ind (P : Server → Prop) :
  P initial →
  (∀ socket e s s', P s → socket ≠ "" → change socket s e s' → P s') →
  ∀ s, reachable s → P s.
Proof.
  intros Hinit Hstep s Hs.
  induction Hs as [|fuel socket e s s' out Hs IH [Hsock _] H]; [exact Hinit|].
  apply (Hstep socket e s s' IH Hsock). by eapply handle_change.
Qed.

Lemma nth_code_room_code (random : nat → Q) (k : nat) :
  Helpers.unit_draws random → room_code (nth_code random k).
Proof.
  intros Hu. unfold nth_code, room_code, Helpers.generateRoomId.
  split.
  - rewrite generateRoomId_loop_length; [reflexivity|]. intros i. apply Hu.
  - apply generateRoomId_loop_symbols. constructor.
Qed.

Lemma room_code_nonempty (c : string) : room_code c → c ≠ "".
Proof. intros [Hlen _] ->. discriminate. Qed.

(** Only a [createRoom] event puts a room under a code that was free. *)
Lemma change_new_key s s' (socket : string) (e : ClientEvent) (c : string) :
  change socket s e s' →
  rooms s !! c = None → is_Some (rooms s' !! c) →
  ∃ random username, e = createRoom random username.
Proof.
  intros H Hnone Hsome.
  destruct H as [e|random username code Hfree|roomId username room Hroom
                |state playerId roomId room (Hs & Hp & Hroom) Hhost
                |e playerId roomId room He (Hs & Hp & Hroom)];
    cbn [rooms] in Hsome.
  - rewrite Hnone in Hsome. by destruct Hsome.
  - by eexists _, _.
  - exfalso. destruct (decide (c = roomId)) as [->|Hne]; [congruence|].
    rewrite lookup_insert_ne in Hsome by done.
    rewrite Hnone in Hsome. by destruct Hsome.
  - exfalso. destruct (decide (c = roomId)) as [->|Hne]; [congruence|].
    rewrite lookup_insert_ne in Hsome by done.
    rewrite Hnone in Hsome. by destruct Hsome.
  - exfalso. rewrite lookup_after_depart in Hsome.
    destruct (decide (c = roomId)) as [->|Hne]; [congruence|].
    rewrite Hnone in Hsome. by destruct Hsome.
Qed.

(** A code that comes to hold a room through a handled event is one the
    generator has returned. *)
Lemma handle_new_key (fuel : nat) (socket : string) (e : ClientEvent)
    s s' (out : list Effect) (c : string) :
  event_ok socket e → handle fuel socket e s = Some (s', out) →
  rooms s !! c = None → is_Some (rooms s' !! c) → room_code c.
Proof.
  intros [_ Hok] H Hnone Hsome.
  pose proof (handle_change _ _ _ _ _ _ H) as Hch.
  destruct (change_new_key _ _ _ _ _ Hch Hnone Hsome) as (random & username & ->).
  cbn [handle] in H. unfold on_createRoom in H.
  rewrite createRoom_unfold in H.
  destruct (RoomManager.createRoom_loop fuel _ (rooms s) (nth_code random 0))
    as [code|] eqn:L; [|discriminate].
  injection H as <- <-. cbn [rooms] in Hsome.
  apply createRoom_loop_iff in L. destruct L as (d & _ & -> & _).
  destruct (decide (c = nth_code random (0 + d))) as [->|Hne].
  - by apply nth_code_room_code.
  - rewrite lookup_insert_ne in Hsome by done.
    rewrite Hnone in Hsome. by destruct Hsome.
Qed.

Lemma key_is_roomId_change s s' (socket : string) (e : ClientEvent) :
  change socket s e s' →
  (∀ c r, rooms s !! c = Some r → GameRoom.roomId r = c) →
  ∀ c r, rooms s' !! c = Some r → GameRoom.roomId r = c.
Proof.
  intros H Hk c r.
  destruct H as [e|random username code Hfree|roomId username room Hroom
                |state playerId roomId room (Hs & Hp & Hroom) Hhost
                |e playerId roomId room He (Hs & Hp & Hroom)];
    cbn [rooms]; [apply Hk| | | |].
  - destruct (decide (c = code)) as [->|Hne].
    + rewrite lookup_insert_eq. by intros [= <-].
    + rewrite lookup_insert_ne by done. apply Hk.
  - destruct (decide (c = roomId)) as [->|Hne].
    + rewrite lookup_insert_eq. room_is. by apply (Hk roomId room).
    + rewrite lookup_insert_ne by done. apply Hk.
  - destruct (decide (c = roomId)) as [->|Hne].
    + rewrite lookup_insert_eq. room_is. by apply (Hk roomId room).
    + rewrite lookup_insert_ne by done. apply Hk.
  - rewrite lookup_after_depart.
    destruct (decide (c = roomId)) as [->|Hne]; [|apply Hk].
    destruct (GameRoom.isEmpty _); [discriminate|].
    intros [= <-]. by apply (Hk roomId room).
Qed.

Lemma no_empty_room_change s s' (socket : string) (e : ClientEvent) :
  change socket s e s' → no_empty_room s → no_empty_room s'.
Proof.
  intros H Hn c r.
  destruct H as [e|random username code Hfree|roomId username room Hroom
                |state playerId roomId room (Hs & Hp & Hroom) Hhost
                |e playerId roomId room He (Hs & Hp & Hroom)];
    cbn [rooms]; [apply Hn| | | |].
  - destruct (decide (c = code)) as [->|Hne].
    + rewrite lookup_insert_eq. room_is.
      apply (isEmpty_false_members _ socket). rewrite members_new. set_solver.
    + rewrite lookup_insert_ne by done. apply Hn.
  - destruct (decide (c = roomId)) as [->|Hne].
    + rewrite lookup_insert_eq. room_is.
      apply (isEmpty_false_members _ socket). rewrite members_addPlayer. set_solver.
    + rewrite lookup_insert_ne by done. apply Hn.
  - destruct (decide (c = roomId)) as [->|Hne].
    + rewrite lookup_insert_eq. room_is.
      destruct (GameRoom.isEmpty (GameRoom.updateGameState state room)) eqn:E;
        [|done].
      apply isEmpty_members in E. rewrite members_updateGameState in E.
      assert (Hm : members room = ∅) by set_solver.
      apply isEmpty_members in Hm. rewrite (Hn _ _ Hroom) in Hm. discriminate.
    + rewrite lookup_insert_ne by done. apply Hn.
  - rewrite lookup_after_depart.
    destruct (decide (c = roomId)) as [->|Hne]; [|apply Hn].
    destruct (GameRoom.isEmpty _) eqn:E; [discriminate|]. by intros [= <-].
Qed.

Lemma bindings_coupled_change s s' (socket : string) (e : ClientEvent) :
  socket ≠ "" → change socket s e s' → bindings_coupled s → bindings_coupled s'.
Proof.
  intros Hsock H [Hid Hdom].
  destruct H as [e|random username code Hfree|roomId username room Hroom
                |state playerId roomId room (Hs & Hp & Hroom) Hhost
                |e playerId roomId room He (Hs & Hp & Hroom)];
    [by split| | |by split|]; split; cbn [socketToPlayer playerToRoom].
  - intros k v. destruct (decide (k = socket)) as [->|Hne].
    + rewrite lookup_insert_eq. by intros [= <-].
    + rewrite lookup_insert_ne by done. apply Hid.
  - rewrite !dom_insert_L. by rewrite Hdom.
  - intros k v. destruct (decide (k = socket)) as [->|Hne].
    + rewrite lookup_insert_eq. by intros [= <-].
    + rewrite lookup_insert_ne by done. apply Hid.
  - rewrite !dom_insert_L. by rewrite Hdom.
  - intros k v Hk. apply lookup_delete_Some in Hk as [_ Hk]. by apply Hid.
  - destruct (Hid _ _ Hs) as [-> _]. rewrite !dom_delete_L. by rewrite Hdom.
Qed.

Lemma listed_are_members_change s s' (socket : string) (e : ClientEvent) :
  change socket s e s' → listed_are_members s → listed_are_members s'.
Proof.
  intros H Hl c r.
  destruct H as [e|random username code Hfree|roomId username room Hroom
                |state playerId roomId room (Hs & Hp & Hroom) Hhost
                |e playerId roomId room He (Hs & Hp & Hroom)];
    cbn [rooms]; [apply Hl| | | |].
  - destruct (decide (c = code)) as [->|Hne].
    + rewrite lookup_insert_eq. room_is. by rewrite listed_new, members_new.
    + rewrite lookup_insert_ne by done. apply Hl.
  - destruct (decide (c = roomId)) as [->|Hne].
    + rewrite lookup_insert_eq. room_is.
      rewrite listed_addPlayer, members_addPlayer.
      specialize (Hl _ _ Hroom). set_solver.
    + rewrite lookup_insert_ne by done. apply Hl.
  - destruct (decide (c = roomId)) as [->|Hne].
    + rewrite lookup_insert_eq. room_is.
      rewrite members_updateGameState.
      change (GameRoom.gameState (GameRoom.updateGameState state room)) with state.
      set_solver.
    + rewrite lookup_insert_ne by done. apply Hl.
  - rewrite lookup_after_depart.
    destruct (decide (c = roomId)) as [->|Hne]; [|apply Hl].
    destruct (GameRoom.isEmpty _); [discriminate|]. room_is.
    rewrite listed_removePlayer, members_removePlayer.
    specialize (Hl _ _ Hroom). set_solver.
Qed.

Lemma keyed_by_code_reachable s : reachable s → keyed_by_code s.
Proof.
  intros Hs.
  induction Hs as [|fuel socket e s s' out Hs IH Hok H].
  - intros c r. unfold initial, RoomManager.empty. cbn [rooms].
    by rewrite lookup_empty.
  - intros c r Hc. split.
    + apply (key_is_roomId_change s s' socket e); [by eapply handle_change| |done].
      intros c0 r0 H0. by apply IH in H0 as [? _].
    + destruct (rooms s !! c) as [r0|] eqn:E.
      * by apply IH in E as [_ ?].
      * by apply (handle_new_key fuel socket e s s' out c).
Qed.

Lemma bindings_coupled_reachable s : reachable s → bindings_coupled s.
Proof.
  apply reachable_change_ind.
  - split; [|done]. intros k v. unfold initial. cbn [socketToPlayer].
    by rewrite lookup_empty.
  - intros socket e s0 s' IH Hsock H. by apply (bindings_coupled_change s0 s' socket e).
Qed.

Lemma bound_is_member_reachable s : reachable s → bound_is_member s.
Proof.
  apply reachable_change_ind.
  - intros p c. unfold initial. cbn [playerToRoom]. by rewrite lookup_empty.
  - intros socket e s0 s' IH _ H. by apply (bound_is_member_change s0 s' socket e).
Qed.

(** A socket with an entry in [socketToPlayer] passes the three lookups at
    the head of the handlers. *)
Lemma bound_reachable s (socket playerId : string) :
  reachable s → socketToPlayer s !! socket = Some playerId →
  playerId = socket ∧ socket ≠ "" ∧
  ∃ roomId room,
    bound_to s socket socket roomId room ∧ roomId ≠ "" ∧ socket ∈ members room.
Proof.
  intros Hs Hsock.
  destruct (bindings_coupled_reachable s Hs) as [Hid Hdom].
  destruct (Hid _ _ Hsock) as [-> Hne]. split; [done|]. split; [done|].
  assert (Hin : socket ∈ dom (playerToRoom s)).
  { rewrite <- Hdom. apply elem_of_dom. by eexists. }
  apply elem_of_dom in Hin as [roomId Hp].
  destruct (bound_is_member_reachable s Hs _ _ Hp) as (room & Hroom & Hmem).
  exists roomId, room. split; [by repeat split|]. split; [|done].
  apply room_code_nonempty.
  by apply (keyed_by_code_reachable s Hs) in Hroom as [_ ?].
Qed.

Lemma reachable_s_created : reachable s_created.
Proof.
  apply (reachable_handle 0 "h" (createRoom zeros "Alice") initial s_created
           [socket_join "h" "AAAAAA"; callback_createRoom "AAAAAA"]).
  - constructor.
  - split; [discriminate|exact zeros_unit_draws].
  - vm_compute. reflexivity.
Qed.

Lemma reachable_s_joined : reachable s_joined.
Proof.
  apply (reachable_handle 0 "f" (joinRoom "AAAAAA" "Bob") s_created s_joined
           (on_joinRoom "f" "AAAAAA" "Bob" s_created).2).
  - exact reachable_s_created.
  - split; [discriminate|exact I].
  - vm_compute. reflexivity.
Qed.



End Reachable.


(** X8: in every reachable state each room of the directory is stored under
    its own room code, and that code is one the generator makes: six symbols
    of its alphabet.  So two live rooms never carry the same code. *)
Theorem reachable_keyed_by_code (s : Server) (c : string) (r : GameRoom.t) :
  reachable s → RoomManager.getRoom c (rooms s) = Some r →
  GameRoom.getRoomId r = c ∧
  String.length c = 6%nat ∧
  Forall (λ a, a ∈ alphabet) (symbols c) ∧
  (∀ c' r', RoomManager.getRoom c' (rooms s) = Some r' →
            GameRoom.getRoomId r' = GameRoom.getRoomId r → c' = c).
Proof.
  intros Hs Hr. pose proof (keyed_by_code_reachable s Hs) as Hk.
  destruct (Hk c r Hr) as [Hid [Hlen Hsym]].
  split; [done|]. split; [done|]. split; [done|].
  intros c' r' Hr' Heq. destruct (Hk c' r' Hr') as [Hid' _].
  unfold GameRoom.getRoomId in *. congruence.
Qed.

Lemma reachable_keyed_by_code_witness :
  GameRoom.getRoomId room0 = "AAAAAA".
Proof.
  exact (proj1 (reachable_keyed_by_code s_created "AAAAAA" room0
                  reachable_s_created ltac:(vm_compute; reflexivity))).
Defined.

(** X9: in every reachable state no room of the directory is without
    members, so that [cleanupEmptyRooms] has nothing to remove. *)
Theorem reachable_no_empty_room (s : Server) :
  reachable s →
  (∀ c r, RoomManager.getRoom c (rooms s) = Some r → GameRoom.isEmpty r = false) ∧
  RoomManager.cleanupEmptyRooms (rooms s) = rooms s.
Proof.
  intros Hs.
  assert (Hn : no_empty_room s).
  { revert s Hs. apply reachable_change_ind.
    - intros c r. unfold initial, RoomManager.empty. cbn [rooms].
      by rewrite lookup_empty.
    - intros socket e s0 s' IH _ H. by apply (no_empty_room_change s0 s' socket e). }
  split; [exact Hn|]. by apply cleanupEmptyRooms_id.
Qed.

Lemma reachable_no_empty_room_witness :
  RoomManager.cleanupEmptyRooms (rooms s_joined) = rooms s_joined.
Proof. exact (proj2 (reachable_no_empty_room s_joined reachable_s_joined)). Defined.

(** X10: in every reachable state [socketToPlayer] maps each socket id it
    knows to that same id, and the identities it knows are exactly those
    [playerToRoom] has an entry for. *)
Theorem reachable_bindings_coupled (s : Server) :
  reachable s →
  (∀ socket playerId, socketToPlayer s !! socket = Some playerId →
                      playerId = socket) ∧
  (∀ p, is_Some (socketToPlayer s !! p) ↔ is_Some (playerToRoom s !! p)).
Proof.
  intros Hs. destruct (bindings_coupled_reachable s Hs) as [Hid Hdom].
  split.
  - intros socket playerId H. by apply Hid in H as [? _].
  - intros p. by rewrite <- !elem_of_dom, Hdom.
Qed.

Lemma reachable_bindings_coupled_witness :
  is_Some (socketToPlayer s_joined !! "f") ↔ is_Some (playerToRoom s_joined !! "f").
Proof.
  exact (proj2 (reachable_bindings_coupled s_joined reachable_s_joined) "f").
Defined.

(** X11: in every reachable state no binding is stale: a socket with an entry
    in [socketToPlayer] is bound to a room that is in the directory and has
    the socket among its members, so none of the three lookups at the head of
    [updateGameState], of the forwarding handlers and of
    [handlePlayerDisconnect] fails for it. *)
Theorem reachable_no_stale_binding (s : Server) (socket playerId : string) :
  reachable s → socketToPlayer s !! socket = Some playerId →
  ∃ roomId room,
    truthy (socketToPlayer s !! socket) = Some socket ∧
    truthy (playerToRoom s !! socket) = Some roomId ∧
    RoomManager.getRoom roomId (rooms s) = Some room ∧
    socket ∈ members room.
Proof.
  intros Hs H.
  destruct (bound_reachable s socket playerId Hs H)
    as (-> & Hne & roomId & room & (Hs' & Hp & Hr) & Hrne & Hmem).
  exists roomId, room.
  rewrite Hs', Hp, !truthy_Some by done. by repeat split.
Qed.

Lemma reachable_no_stale_binding_witness :
  ∃ roomId room,
    truthy (socketToPlayer s_joined !! "f") = Some "f" ∧
    truthy (playerToRoom s_joined !! "f") = Some roomId ∧
    RoomManager.getRoom roomId (rooms s_joined) = Some room ∧
    "f" ∈ members room.
Proof.
  exact (reachable_no_stale_binding s_joined "f" "f" reachable_s_joined
           ltac:(vm_compute; reflexivity)).
Defined.

(** X12: in every reachable state whoever the stored state of a room lists in
    its players list is a member of that room. *)
Theorem reachable_listed_are_members (s : Server) (c : string) (r : GameRoom.t)
    (p : Player.t) :
  reachable s → RoomManager.getRoom c (rooms s) = Some r →
  p ∈ GameState.players (GameRoom.getGameState r) →
  is_Some (GameRoom.getPlayer (Player.id p) r).
Proof.
  intros Hs Hr Hp.
  assert (Hl : listed_are_members s).
  { clear Hr. revert s Hs. apply reachable_change_ind.
    - intros c0 r0. unfold initial, RoomManager.empty. cbn [rooms].
      by rewrite lookup_empty.
    - intros socket e s0 s' IH _ H.
      by apply (listed_are_members_change s0 s' socket e). }
  unfold GameRoom.getPlayer. apply elem_of_dom. apply (Hl c r Hr).
  unfold listed. apply elem_of_list_to_set, list_elem_of_fmap. by exists p.
Qed.

Lemma reachable_listed_are_members_witness :
  is_Some (GameRoom.getPlayer "f" room_joined).
Proof.
  apply (reachable_listed_are_members s_joined "AAAAAA" room_joined
           (Player.literal "f" "Bob")).
  - exact reachable_s_joined.
  - vm_compute. reflexivity.
  - unfold room_joined, room0. room_simpl.
    apply list_elem_of_further, list_elem_of_here.
Defined.

(** ** The handlers: failure paths and what they leave alone *)

(** X13: the disconnect path is idempotent: run a second time for the same
    socket, [handlePlayerDisconnect] changes nothing and emits nothing. *)
Theorem disconnect_idempotent (socket : string) (s : Server) :
  handlePlayerDisconnect socket (handlePlayerDisconnect socket s).1
  = ((handlePlayerDisconnect socket s).1, []).
Proof.
  destruct (handlePlayerDisconnect_cases s socket)
    as [E|(playerId & roomId & room & Hb & Hp & Hr)].
  - rewrite E. cbn [fst]. exact E.
  - rewrite (handlePlayerDisconnect_bound _ _ _ _ _ Hb Hp Hr).
    cbv zeta. cbn [fst]. unfold handlePlayerDisconnect at 1.
    cbn [socketToPlayer]. by rewrite lookup_delete_eq.
Qed.

(** X14: in a reachable state a forwarded message ([submitVote],
    [submitDescription], [submitMrWhiteGuess]) never changes the server
    state; from a bound socket it yields exactly one emit, addressed to the
    host id of the room the socket is bound to and is a member of, carrying
    the message as it came; from a socket without binding it yields nothing. *)
Theorem forward_reaches_host (s : Server) (socket : string) (m : ServerMessage) :
  reachable s →
  (forward_to_host socket m s).1 = s ∧
  match socketToPlayer s !! socket with
  | None => (forward_to_host socket m s).2 = []
  | Some _ =>
      ∃ roomId room,
        bound_to s socket socket roomId room ∧ socket ∈ members room ∧
        (forward_to_host socket m s).2 = [io_to_emit (GameRoom.hostId room) m]
  end.
Proof.
  intros Hs. split; [apply forward_to_host_state|].
  destruct (socketToPlayer s !! socket) as [playerId|] eqn:E.
  - destruct (bound_reachable s socket playerId Hs E)
      as (-> & Hne & roomId & room & Hb & Hrne & Hmem).
    exists roomId, room. split; [done|]. split; [done|].
    destruct Hb as (Hs' & Hp & Hr). unfold forward_to_host.
    rewrite Hs', (truthy_Some _ Hne), Hp, (truthy_Some _ Hrne).
    unfold RoomManager.getRoom. by rewrite Hr.
  - unfold forward_to_host. by rewrite E.
Qed.

Lemma forward_reaches_host_witness :
  (on_submitVote "f" "f" "h" s_joined).1 = s_joined.
Proof.
  exact (proj1 (forward_reaches_host s_joined "f" (submitVote_msg "f" "h")
                  reachable_s_joined)).
Defined.

(** X15: [joinRoom] replies success exactly when the code is in the
    directory.  For a code that is not, the server state is unchanged and the
    only effect is the reply [callback(false, 'Room not found')]: the sender
    is neither bound, nor put into a transport group, nor announced. *)
Theorem joinRoom_reply (s : Server) (socket roomId username : string) :
  let '(s', out) := on_joinRoom socket roomId username s in
  (callback_joinRoom true None ∈ out ↔
   is_Some (RoomManager.getRoom roomId (rooms s))) ∧
  (RoomManager.getRoom roomId (rooms s) = None →
   s' = s ∧ out = [callback_joinRoom false (Some "Room not found")]).
Proof.
  unfold on_joinRoom.
  destruct (RoomManager.getRoom roomId (rooms s)) as [room|] eqn:E.
  - destruct (GameRoom.addPlayer socket username room) as [player room'].
    split; [|discriminate]. split; [by eexists|]. intros _. set_solver.
  - split; [|done]. split; [|by intros []].
    intros H. apply list_elem_of_singleton in H. discriminate.
Qed.

(** X16: when a bound member leaves a room in which somebody else remains,
    the room stays in the directory with the leaver taken out of its member
    map and nobody else; the leaver's two bindings are gone, every other
    binding and every other room is as before, and the room is told
    [playerLeft] before the socket leaves the transport group. *)
Theorem leave_with_others_remaining (s : Server) (socket playerId roomId other : string)
    (room : GameRoom.t) :
  bound_to s socket playerId roomId room → playerId ≠ "" → roomId ≠ "" →
  other ∈ members room → other ≠ playerId →
  let '(s', out) := handlePlayerDisconnect socket s in
  RoomManager.getRoom roomId (rooms s') = Some (GameRoom.removePlayer playerId room) ∧
  members (GameRoom.removePlayer playerId room) = members room ∖ {[playerId]} ∧
  (∀ c, c ≠ roomId → rooms s' !! c = rooms s !! c) ∧
  socketToPlayer s' !! socket = None ∧
  playerToRoom s' !! playerId = None ∧
  (∀ k, k ≠ socket → socketToPlayer s' !! k = socketToPlayer s !! k) ∧
  (∀ p, p ≠ playerId → playerToRoom s' !! p = playerToRoom s !! p) ∧
  out = [socket_to_emit socket roomId (playerLeft_msg playerId);
         socket_leave socket roomId].
Proof.
  intros Hb Hp Hr Hother Hne.
  rewrite (handlePlayerDisconnect_bound _ _ _ _ _ Hb Hp Hr). cbv zeta.
  assert (Hstay : GameRoom.isEmpty (GameRoom.removePlayer playerId room) = false).
  { apply (isEmpty_false_members _ other). rewrite members_removePlayer. set_solver. }
  rewrite Hstay. unfold RoomManager.getRoom, RoomManager.putRoom.
  cbn [rooms socketToPlayer playerToRoom].
  split; [apply lookup_insert_eq|].
  split; [apply members_removePlayer|].
  split; [intros c Hc; by apply lookup_insert_ne|].
  split; [apply lookup_delete_eq|].
  split; [apply lookup_delete_eq|].
  split; [intros k Hk; by apply lookup_delete_ne|].
  split; [intros p Hp'; by apply lookup_delete_ne|done].
Qed.

Lemma leave_with_others_remaining_witness :
  RoomManager.getRoom "AAAAAA" (rooms (handlePlayerDisconnect "f" s_joined).1)
  = Some (GameRoom.removePlayer "f" room_joined).
Proof.
  pose proof (leave_with_others_remaining s_joined "f" "f" "AAAAAA" "h" room_joined
                s_joined_bound_f ltac:(discriminate) ltac:(discriminate)) as H.
  destruct (handlePlayerDisconnect "f" s_joined) as [s' out].
  apply H; [|discriminate].
  unfold room_joined, room0. rewrite members_addPlayer, members_new. set_solver.
Defined.

(** X17: [updateGameState] never touches the two binding maps and never
    changes which codes hold a room; and whenever it changes the server state
    or emits anything, the sender is bound to a room and is that room's
    host. *)
Theorem publish_needs_bound_host (s : Server) (socket : string) (state : GameState.t) :
  let '(s', out) := on_updateGameState socket state s in
  socketToPlayer s' = socketToPlayer s ∧
  playerToRoom s' = playerToRoom s ∧
  dom (rooms s') = dom (rooms s) ∧
  (s' ≠ s ∨ out ≠ [] →
   ∃ playerId roomId room,
     bound_to s socket playerId roomId room ∧ GameRoom.hostId room = playerId).
Proof.
  destruct (on_updateGameState_cases s socket state)
    as [E|(playerId & roomId & room & Hb & Hp & Hr & Hhost)].
  - rewrite E. repeat split; try done. intros [H|H]; by destruct H.
  - rewrite (on_updateGameState_bound _ _ _ _ _ _ Hb Hp Hr).
    assert (E : String.eqb (GameRoom.getHostId room) playerId = true)
      by (by apply String.eqb_eq).
    rewrite E. cbn [negb]. cbv iota. cbn [rooms socketToPlayer playerToRoom].
    split; [done|]. split; [done|]. split.
    + unfold RoomManager.putRoom. rewrite dom_insert_L.
      destruct Hb as (_ & _ & Hroom).
      assert (roomId ∈ dom (rooms s)) by (apply elem_of_dom; by eexists).
      set_solver.
    + intros _. by exists playerId, roomId, room.
Qed.

(** X18: a [createRoom] that returns makes the sender the host and the only
    member of a fresh room under a code that was free, binds the sender to
    it, keeps every other room and every other binding, and replies with
    that code after putting the socket into the code's transport group. *)
Theorem on_createRoom_result (fuel : nat) (random : nat → Q)
    (socket username : string) (s s' : Server) (out : list Effect) :
  on_createRoom fuel random socket username s = Some (s', out) →
  ∃ code,
    out = [socket_join socket code; callback_createRoom code] ∧
    rooms s !! code = None ∧
    bound_to s' socket socket code (GameRoom.new code socket username) ∧
    GameRoom.getHostId (GameRoom.new code socket username) = socket ∧
    members (GameRoom.new code socket username) = {[socket]} ∧
    (∀ c, c ≠ code → rooms s' !! c = rooms s !! c) ∧
    (∀ k, k ≠ socket → socketToPlayer s' !! k = socketToPlayer s !! k) ∧
    (∀ p, p ≠ socket → playerToRoom s' !! p = playerToRoom s !! p).
Proof.
  unfold on_createRoom. intros H.
  destruct (RoomManager.createRoom fuel random socket username (rooms s))
    as [[code rooms']|] eqn:E; [|discriminate].
  injection H as <- <-. apply createRoom_inv in E. destruct E as [Hfree ->].
  exists code. cbn [rooms socketToPlayer playerToRoom].
  split; [done|]. split; [done|].
  split; [repeat split; apply lookup_insert_eq|].
  split; [done|]. split; [apply members_new|].
  split; [intros c Hc; by apply lookup_insert_ne|].
  split; intros k Hk; by apply lookup_insert_ne.
Qed.

Lemma on_createRoom_result_witness :
  ∃ code, rooms initial !! code = None ∧
          bound_to s_created "h" "h" code (GameRoom.new code "h" "Alice").
Proof.
  destruct (on_createRoom_result 0 zeros "h" "Alice" initial s_created
              [socket_join "h" "AAAAAA"; callback_createRoom "AAAAAA"]
              ltac:(vm_compute; reflexivity))
    as (code & _ & Hfree & Hb & _).
  by exists code.
Defined.

(** ** The generator reaches every room code *)

Section GeneratorRange.
Import Helpers.

Lemma position_get (a : ascii) (s : string) :
  a ∈ symbols s → String.get (position a s) s = Some a.
Proof.
  unfold symbols. induction s as [|b s IH]; simpl; intros Hin.
  - by apply elem_of_nil in Hin.
  - destruct (Ascii.eqb_spec a b) as [->|Hne]; [reflexivity|].
    apply IH. apply elem_of_cons in Hin as [?|?]; [congruence|done].
Qed.

Lemma position_lt (a : ascii) (s : string) :
  a ∈ symbols s → (position a s < String.length s)%nat.
Proof.
  unfold symbols. induction s as [|b s IH]; simpl; intros Hin.
  - by apply elem_of_nil in Hin.
  - destruct (Ascii.eqb_spec a b) as [->|Hne]; [lia|].
    apply elem_of_cons in Hin as [?|?]; [congruence|].
    apply Nat.succ_lt_mono in IH; [exact IH|done].
Qed.

Lemma random_index_draw_of (a : ascii) :
  random_index (draw_of a) = Z.of_nat (position a characters).
Proof.
  unfold random_index, draw_of, Qfloor, Qmult, inject_Z. cbn [Qnum Qden].
  change (Z.of_nat (String.length characters)) with 32.
  change (Z.pos (32 * 1)) with 32. apply Z.div_mul. lia.
Qed.

Lemma draw_of_unit (a : ascii) :
  a ∈ alphabet → (0 <= draw_of a)%Q ∧ (draw_of a < 1)%Q.
Proof.
  intros Hin. apply position_lt in Hin.
  change (String.length characters) with 32%nat in Hin.
  unfold draw_of, Qle, Qlt. cbn [Qnum Qden]. lia.
Qed.

Lemma charAt_draw_of (a : ascii) :
  a ∈ alphabet →
  charAt characters (random_index (draw_of a)) = String a EmptyString.
Proof.
  intros Hin. rewrite random_index_draw_of. unfold charAt.
  destruct (Z.ltb_spec (Z.of_nat (position a characters)) 0) as [?|_]; [lia|].
  rewrite Nat2Z.id. by rewrite (position_get _ _ Hin).
Qed.

Lemma append_snoc (s t : string) (a : ascii) :
  ((s ++ String a EmptyString) ++ t = s ++ String a t)%string.
Proof.
  induction s as [|b s IH]; [reflexivity|].
  change (String b ((s ++ String a EmptyString) ++ t)
          = String b (s ++ String a t))%string.
  by f_equal.
Qed.

Lemma append_empty_r (s : string) : (s ++ "" = s)%string.
Proof.
  induction s as [|b s IH]; [reflexivity|].
  change (String b (s ++ "") = String b s)%string. by f_equal.
Qed.

Lemma generateRoomId_loop_follows (code : string) (i : nat) (random : nat → Q)
    (result : string) :
  (∀ j a, String.get j code = Some a → random (i + j)%nat = draw_of a) →
  Forall (λ a, a ∈ alphabet) (symbols code) →
  generateRoomId_loop (String.length code) i random result
  = (result ++ code)%string.
Proof.
  revert i result. induction code as [|a code IH]; intros i result Hr Hall.
  - symmetry. apply append_empty_r.
  - simpl String.length. simpl generateRoomId_loop.
    apply Forall_cons in Hall as [Ha Hall].
    rewrite <- (Nat.add_0_r i) at 2. rewrite (Hr 0%nat a eq_refl).
    rewrite (charAt_draw_of _ Ha), IH; [apply append_snoc| |done].
    intros j b Hj. rewrite <- (Hr (S j) b Hj). f_equal. lia.
Qed.

End GeneratorRange.

(** X19: the codes that [generateRoomId] can return, for draws in [0, 1), are
    exactly the strings of six symbols of its alphabet: it returns no other
    string, and every such string is returned for suitable draws. *)
Theorem generateRoomId_range (c : string) :
  room_code c ↔
  ∃ random, Helpers.unit_draws random ∧ Helpers.generateRoomId random = c.
Proof.
  split.
  - intros [Hlen Hall]. exists (draws_for c). split.
    + intros i. unfold draws_for.
      destruct (String.get i c) as [a|] eqn:E; [|done].
      apply draw_of_unit. rewrite Forall_forall in Hall. apply Hall.
      by apply (get_symbols c i).
    + unfold Helpers.generateRoomId. rewrite <- Hlen.
      rewrite generateRoomId_loop_follows; [reflexivity| |done].
      intros j a Hj. unfold draws_for. cbn [Nat.add]. by rewrite Hj.
  - intros (random & Hu & <-). split.
    + unfold Helpers.generateRoomId. by rewrite generateRoomId_loop_length.
    + apply generateRoomId_loop_symbols. constructor.
Qed.

(** ** The member records after a publish *)

Lemma lookup_set_each_listed (l : list Player.t) (m : gmap string Player.t)
    (p : Player.t) :
  NoDup (Player.id <$> l) → p ∈ l →
  foldl (λ (m : gmap string Player.t) player, <[Player.id player := player]> m) m l
    !! Player.id p = Some p.
Proof.
  revert m. induction l as [|q l IH]; intros m Hnd Hin.
  - by apply elem_of_nil in Hin.
  - rewrite fmap_cons in Hnd. apply NoDup_cons in Hnd as [Hq Hnd].
    cbn [foldl]. apply elem_of_cons in Hin as [->|Hin].
    + rewrite lookup_set_each; [apply lookup_insert_eq|].
      by rewrite elem_of_list_to_set.
    + by apply IH.
Qed.

(** X22: when the players of a published state have pairwise different ids,
    [updateGameState] leaves each of them in the member map exactly as the
    new state has it: [getPlayer] returns the published record, and the
    stored state is the published one. *)
Theorem updateGameState_records (state : GameState.t) (r : GameRoom.t)
    (p : Player.t) :
  NoDup (Player.id <$> GameState.players state) →
  p ∈ GameState.players state →
  GameRoom.getPlayer (Player.id p) (GameRoom.updateGameState state r) = Some p ∧
  GameRoom.getGameState (GameRoom.updateGameState state r) = state.
Proof.
  intros Hnd Hin. split; [|reflexivity].
  unfold GameRoom.getPlayer. room_simpl. by apply lookup_set_each_listed.
Qed.

Lemma updateGameState_records_witness :
  GameRoom.getPlayer "x" (GameRoom.updateGameState state_with_stranger room0)
  = Some (Player.literal "x" "Eve").
Proof.
  apply (updateGameState_records state_with_stranger room0 (Player.literal "x" "Eve")).
  - unfold state_with_stranger. room_simpl. cbn [fmap list_fmap].
    apply NoDup_singleton.
  - unfold state_with_stranger. room_simpl. apply list_elem_of_here.
Defined.
